(** * Path-sensitive control state: [src/compiler/control-path-state.h]

    A shallow embedding of [ControlPathState<NodeState>] and of the reducer
    mixin [AdvancedReducerWithControlPathState<NodeState>], together with the
    properties of lookup, extension, narrowing and propagation.

    Mutating member functions become functions from the receiver to the new
    receiver.  Calls that can hit a [CHECK] return in the [result] monad. *)

From stdpp Require Import base decidable option list gmap fin_maps.

(** ** Outcomes of a call *)

(** [Ok a]: the call returned [a].  [Abort]: a precondition check of a
    primitive failed.  [OutOfFuel]: a bounded unrolling of a [while] loop was
    too short (shown below never to happen for the fuel the model uses). *)
Inductive result (A : Type) : Type :=
  | Ok (a : A)
  | Abort
  | OutOfFuel.
Arguments Ok {A} a.
Arguments Abort {A}.
Arguments OutOfFuel {A}.

(** Sequencing: the first call that does not return ends the computation.
    The instance gives [x ← r; k] for [result]. *)
Definition bind {A B : Type} (k : A → result B) (r : result A) : result B :=
  match r with
  | Ok a => k a
  | Abort => Abort
  | OutOfFuel => OutOfFuel
  end.

#[global] Instance result_bind : MBind result := @bind.
#[global] Instance result_ret : MRet result := @Ok.

(** [while (cond) body], unrolled at most [fuel] times. *)
Fixpoint while_loop {St : Type} (fuel : nat) (cond : St → bool)
    (body : St → result St) (s : St) : result St :=
  if cond s then
    match fuel with
    | O => OutOfFuel
    | S fuel' => s' ← body s; while_loop fuel' cond body s'
    end
  else Ok s.

(** ** The persistent list primitive *)

Module FunctionalList.
Section FunctionalList.
Context {A : Type} `{EqDecision A}.

(** Modelled from the spec: [src/compiler/functional-list.h] is not among
    the sources.  The persistent list primitive offers prepend, drop-front,
    front-peek, iteration and an equality test, and prepend takes an
    optional hint that is reused when it already is the list to build.
    Cells are immutable, so a list is modelled by its sequence of elements,
    front first, and two lists are equal when they hold the same sequence;
    which cells are shared is not observable.  [Size] is the number of
    cells. *)
Definition Size (l : list A) : nat := length l.

(** Modelled from the spec: front-peek ([Front]).  It has a result on a list
    that has a front cell only. *)
Definition Front (l : list A) : result A :=
  match l with
  | [] => Abort
  | a :: _ => Ok a
  end.

(** Modelled from the spec: drop-front ([DropFront]).  It has a result on a
    list that has a front cell only. *)
Definition DropFront (l : list A) : result (list A) :=
  match l with
  | [] => Abort
  | _ :: rest => Ok rest
  end.

(** Modelled from the spec: prepend ([PushFront]). *)
Definition PushFront (a : A) (l : list A) : list A := a :: l.

(** Modelled from the spec: prepend with a hint.  When the hint is one cell
    longer than the list, its front is the new element and its rest is the
    list, the hint is taken; otherwise a cell is allocated. *)
Definition PushFrontHint (a : A) (hint l : list A) : list A :=
  match hint with
  | top :: rest =>
      if bool_decide (Size hint = Size l + 1 ∧ top = a ∧ rest = l)
      then hint
      else PushFront a l
  | [] => PushFront a l
  end.

(** Modelled from the spec: the equality test of two lists ([==]).  The
    spec speaks of the identity of shared cells.  This model has no cells:
    two lists that are the same cells hold the same sequence, so they are
    equal here; two lists that hold the same sequence in cells of their own
    are equal here as well. *)
Definition equal (l1 l2 : list A) : bool := bool_decide (l1 = l2).
End FunctionalList.
End FunctionalList.

(** ** The persistent map primitive *)

Module PersistentMap.
Section PersistentMap.
Context {K V : Type} `{Countable K} `{EqDecision V}.
Variable def : V.

(** Modelled from the spec: [src/compiler/persistent-map.h] is not among
    the sources.  The persistent associative map has get and set with value
    semantics.  A key that was never set reads as the default value
    [def]. *)
Definition Get (k : K) (m : gmap K V) : V := default def (m !! k).

(** Modelled from the spec: set.  The old version of the map is the argument
    and stays as it is. *)
Definition Set_ (k : K) (v : V) (m : gmap K V) : gmap K V := <[k := v]> m.

(** Modelled from the spec: [begin() == end()], the traversal finds no
    entry.  An entry that holds the default value does not count as an entry
    when the map is traversed. *)
Definition no_entries (m : gmap K V) : bool :=
  bool_decide (map_Forall (λ _ v, v = def) m).
End PersistentMap.
End PersistentMap.

(** ** What the template asks of [NodeState] *)

(** The two [static_assert]s ask for a member [node] (the owner of the state)
    and a method [IsSet]; [NodeState()] is the value that stands for "not
    assigned", and states are compared with [==]. *)
Class NodeStateContract (Node NodeState : Type) := {
  node : NodeState → Node;
  IsSet : NodeState → bool;
  NodeState_default : NodeState;
  IsSet_default : IsSet NodeState_default = false;
}.

(** ** [ControlPathState] *)

(** [blocks_] is the list of blocks, innermost first; [states_] maps
    [(node, depth)] to the state assigned to [node] in the block at that
    depth, the outermost block having depth 1.  A depth is the [size_t] size
    of a list of cells, each of which occupies more than one byte of the
    address space, so it is a natural number that never wraps. *)
Record ControlPathState (Node NodeState : Type) `{Countable Node} := {
  blocks_ : list (list NodeState);
  states_ : gmap (Node * nat) NodeState;
}.
Arguments blocks_ {Node NodeState _ _} _.
Arguments states_ {Node NodeState _ _} _.
Arguments Build_ControlPathState {Node NodeState _ _} _ _.

(** The result of a reducer method: [NoChange()] or [Changed(node)]. *)
Inductive Reduction (Node : Type) : Type :=
  | NoChange
  | Changed (n : Node).
Arguments NoChange {Node}.
Arguments Changed {Node} n.

Section ControlPathState.
Context {Node NodeState : Type} `{Countable Node} `{EqDecision NodeState}.
Context `{!NodeStateContract Node NodeState}.

Local Abbreviation CPS := (ControlPathState Node NodeState).
Local Abbreviation Get := (PersistentMap.Get NodeState_default).
Local Abbreviation Set_ := PersistentMap.Set_.
Import FunctionalList.

(** [explicit ControlPathState(Zone* zone) : states_(zone) {}] *)
Definition empty_state : CPS :=
  {| blocks_ := []; states_ := ∅ |}.

(** [for (depth = blocks_.Size(); depth > 0; depth--)], entered with
    [depth]. *)
Fixpoint LookupState_from (n : Node) (states : gmap (Node * nat) NodeState)
    (depth : nat) : NodeState :=
  match depth with
  | O => NodeState_default
  | S depth' =>
      let state := Get (n, depth) states in
      if IsSet state then state else LookupState_from n states depth'
  end.

Definition LookupState (n : Node) (this : CPS) : NodeState :=
  LookupState_from n (states_ this) (Size (blocks_ this)).

Definition IsEmpty (this : CPS) : bool :=
  bool_decide (Size (blocks_ this) = 0).

(** [operator==] and [operator!=] compare [blocks_] only. *)
Definition eqb (this other : CPS) : bool :=
  equal (blocks_ this) (blocks_ other).

Definition neqb (this other : CPS) : bool := negb (eqb this other).

(** The inner loop of [BlocksAndStatesInvariant] over one block; [None] is
    the early [return false]. *)
Fixpoint check_block (depth : nat) (block : list NodeState)
    (seen_this_block : gset Node) (states_copy : gmap (Node * nat) NodeState)
    : option (gmap (Node * nat) NodeState) :=
  match block with
  | [] => Some states_copy
  | state :: rest =>
      if decide (node state ∈ seen_this_block) then
        check_block depth rest seen_this_block states_copy
      else if decide (Get (node state, depth) states_copy = state) then
        check_block depth rest ({[node state]} ∪ seen_this_block)
          (Set_ (node state, depth) NodeState_default states_copy)
      else None
  end.

(** The outer loop, with [depth--] after each block. *)
Fixpoint check_blocks (depth : nat) (blocks : list (list NodeState))
    (states_copy : gmap (Node * nat) NodeState)
    : option (gmap (Node * nat) NodeState) :=
  match blocks with
  | [] => Some states_copy
  | block :: rest =>
      match check_block depth block ∅ states_copy with
      | Some states_copy' => check_blocks (pred depth) rest states_copy'
      | None => None
      end
  end.

Definition BlocksAndStatesInvariant (this : CPS) : bool :=
  match check_blocks (Size (blocks_ this)) (blocks_ this) (states_ this) with
  | Some states_copy => PersistentMap.no_entries NodeState_default states_copy
  | None => false
  end.

Definition AddState (n : Node) (state : NodeState) (hint this : CPS)
    : result CPS :=
  prev_front ← Front (blocks_ this);
  prev_front ←
    (if bool_decide (0 < Size (blocks_ hint)) then
       hint_front ← Front (blocks_ hint);
       Ok (PushFrontHint state hint_front prev_front)
     else Ok (PushFront state prev_front));
  blocks ← DropFront (blocks_ this);
  let blocks := PushFront prev_front blocks in
  Ok {| blocks_ := blocks;
        states_ := Set_ (n, Size blocks) state (states_ this) |}.

Definition AddStateInNewBlock (n : Node) (state : NodeState) (this : CPS)
    : CPS :=
  let new_block := PushFront state [] in
  let states := Set_ (n, Size (blocks_ this) + 1) state (states_ this) in
  {| blocks_ := PushFront new_block (blocks_ this); states_ := states |}.

(** [for (NodeState state : block) states_.Set({state.node, depth}, {})] *)
Definition clear_block (depth : nat) (block : list NodeState)
    (states : gmap (Node * nat) NodeState) : gmap (Node * nat) NodeState :=
  foldl (λ m state, Set_ (node state, depth) NodeState_default m)
    states block.

(** The body shared by the second and the third loop of
    [ResetToCommonAncestor]: clear the entries of the front block, then
    drop it. *)
Definition drop_front_block (this : CPS) : result CPS :=
  front ← Front (blocks_ this);
  let states := clear_block (Size (blocks_ this)) front (states_ this) in
  blocks ← DropFront (blocks_ this);
  Ok {| blocks_ := blocks; states_ := states |}.

(** The three loops act on the pair of the receiver and the by-value
    parameter [other]. *)
Definition trim_other_cond (p : CPS * CPS) : bool :=
  bool_decide (Size (blocks_ p.1) < Size (blocks_ p.2)).

Definition trim_other_body (p : CPS * CPS) : result (CPS * CPS) :=
  blocks ← DropFront (blocks_ p.2);
  Ok (p.1, {| blocks_ := blocks; states_ := states_ p.2 |}).

Definition trim_this_cond (p : CPS * CPS) : bool :=
  bool_decide (Size (blocks_ p.2) < Size (blocks_ p.1)).

Definition trim_this_body (p : CPS * CPS) : result (CPS * CPS) :=
  this ← drop_front_block p.1;
  Ok (this, p.2).

Definition lockstep_cond (p : CPS * CPS) : bool := neqb p.1 p.2.

Definition lockstep_body (p : CPS * CPS) : result (CPS * CPS) :=
  this ← drop_front_block p.1;
  blocks ← DropFront (blocks_ p.2);
  Ok (this, {| blocks_ := blocks; states_ := states_ p.2 |}).

Definition ResetToCommonAncestor_fuel (fuel : nat) (other this : CPS)
    : result CPS :=
  p ← while_loop fuel trim_other_cond trim_other_body (this, other);
  p ← while_loop fuel trim_this_cond trim_this_body p;
  p ← while_loop fuel lockstep_cond lockstep_body p;
  Ok p.1.

(** No loop runs more often than there are blocks in the two stacks. *)
Definition ResetToCommonAncestor (other this : CPS) : result CPS :=
  ResetToCommonAncestor_fuel
    (Size (blocks_ this) + Size (blocks_ other)) other this.
End ControlPathState.

(** ** The per-node side tables *)

Module NodeAuxData.
Section NodeAuxData.
Context {Node T : Type} `{Countable Node}.
Variable def : T.
Variable differs : T → T → bool.

(** Modelled from the spec: [src/compiler/node-aux-data.h] is not among the
    sources.  A side table indexed by node identity; a node without an entry
    reads as the default value [def]. *)
Definition Get (n : Node) (m : gmap Node T) : T := default def (m !! n).

(** Modelled from the spec: [Set] overwrites the entry when the new value
    differs from the stored one, by the [!=] of the value type (here
    [differs]), and reports whether it did. *)
Definition Set_ (n : Node) (data : T) (m : gmap Node T)
    : bool * gmap Node T :=
  if differs (Get n m) data then (true, <[n := data]> m) else (false, m).
End NodeAuxData.
End NodeAuxData.

(** ** [AdvancedReducerWithControlPathState] *)

Record AdvancedReducerWithControlPathState (Node NodeState : Type)
    `{Countable Node} := {
  node_states_ : gmap Node (ControlPathState Node NodeState);
  reduced_ : gmap Node bool;
}.
Arguments node_states_ {Node NodeState _ _} _.
Arguments reduced_ {Node NodeState _ _} _.
Arguments Build_AdvancedReducerWithControlPathState {Node NodeState _ _} _ _.

Section Reducer.
Context {Node NodeState : Type} `{Countable Node} `{EqDecision NodeState}.
Context `{!NodeStateContract Node NodeState}.

(** The graph, as far as this header reads it: the control inputs of each
    node, in order. *)
Variable control_inputs : Node → list Node.

Local Abbreviation CPS := (ControlPathState Node NodeState).
Local Abbreviation Reducer :=
  (AdvancedReducerWithControlPathState Node NodeState).

(** Modelled from the spec: [NodeProperties::GetControlInput] is not among
    the sources.  It reads the control input of [n] with the given index,
    which has to exist. *)
Definition GetControlInput (n : Node) (index : nat) : result Node :=
  match control_inputs n !! index with
  | Some input => Ok input
  | None => Abort
  end.

(** Both tables start out without entries. *)
Definition new_reducer : Reducer :=
  {| node_states_ := ∅; reduced_ := ∅ |}.

Definition GetState (n : Node) (r : Reducer) : CPS :=
  NodeAuxData.Get empty_state n (node_states_ r).

Definition IsReduced (n : Node) (r : Reducer) : bool :=
  NodeAuxData.Get false n (reduced_ r).

Definition UpdateStates (state_owner : Node) (new_state : CPS) (r : Reducer)
    : Reduction Node * Reducer :=
  let '(reduced_changed, reduced) :=
    NodeAuxData.Set_ false xorb state_owner true (reduced_ r) in
  let '(node_states_changed, node_states) :=
    NodeAuxData.Set_ empty_state neqb state_owner new_state
      (node_states_ r) in
  let r' := {| node_states_ := node_states; reduced_ := reduced |} in
  if reduced_changed || node_states_changed
  then (Changed state_owner, r')
  else (NoChange, r').

Definition TakeStatesFromFirstControl (n : Node) (r : Reducer)
    : result (Reduction Node * Reducer) :=
  input ← GetControlInput n 0;
  if negb (IsReduced input r) then Ok (NoChange, r)
  else Ok (UpdateStates n (GetState input r) r).

(** The five-argument overload. *)
Definition UpdateStates_with (state_owner : Node) (prev_states : CPS)
    (additional_node : Node) (additional_state : NodeState)
    (in_new_block : bool) (r : Reducer)
    : result (Reduction Node * Reducer) :=
  prev_states ←
    (if in_new_block || IsEmpty prev_states then
       Ok (AddStateInNewBlock additional_node additional_state prev_states)
     else
       let original := GetState state_owner r in
       AddState additional_node additional_state original prev_states);
  Ok (UpdateStates state_owner prev_states r).
End Reducer.

(** ** Sequences of calls *)

Inductive Op (Node NodeState : Type) `{Countable Node} : Type :=
  | OpAddState (n : Node) (state : NodeState)
      (hint : ControlPathState Node NodeState)
  | OpAddStateInNewBlock (n : Node) (state : NodeState)
  | OpReset (other : ControlPathState Node NodeState).
Arguments OpAddState {Node NodeState _ _} n state hint.
Arguments OpAddStateInNewBlock {Node NodeState _ _} n state.
Arguments OpReset {Node NodeState _ _} other.

Section Sequences.
Context {Node NodeState : Type} `{Countable Node} `{EqDecision NodeState}.
Context `{!NodeStateContract Node NodeState}.

Local Abbreviation CPS := (ControlPathState Node NodeState).
Local Abbreviation Get := (PersistentMap.Get NodeState_default).

Definition apply_op (op : Op Node NodeState) (this : CPS) : result CPS :=
  match op with
  | OpAddState n state hint => AddState n state hint this
  | OpAddStateInNewBlock n state => Ok (AddStateInNewBlock n state this)
  | OpReset other => ResetToCommonAncestor other this
  end.

(** The calls of [ops] one after the other, the first one first. *)
Fixpoint run_ops (ops : list (Op Node NodeState)) (this : CPS)
    : result CPS :=
  match ops with
  | [] => Ok this
  | op :: rest => this' ← apply_op op this; run_ops rest this'
  end.

(** A call that adds a state. *)
Definition is_add (op : Op Node NodeState) : bool :=
  match op with
  | OpReset _ => false
  | _ => true
  end.

(** What a caller of this header passes: the state is set, and it is added
    for the node that owns it. *)
Definition adds_own_fact (op : Op Node NodeState) : bool :=
  match op with
  | OpAddState n state _ | OpAddStateInNewBlock n state =>
      IsSet state && bool_decide (node state = n)
  | OpReset _ => true
  end.

(** *** The words of the specification *)

(** The newest state of a block whose owner is [n]. *)
Fixpoint newest_in_block (n : Node) (block : list NodeState)
    : option NodeState :=
  match block with
  | [] => None
  | state :: rest =>
      if decide (node state = n) then Some state
      else newest_in_block n rest
  end.

(** The block at stack depth [d]; the front block of [blocks] has depth
    [length blocks] and the last one depth 1.  No block has another
    depth. *)
Fixpoint block_at (blocks : list (list NodeState)) (d : nat)
    : list NodeState :=
  match blocks with
  | [] => []
  | block :: rest =>
      if decide (d = S (length rest)) then block else block_at rest d
  end.

(** I1: what the side index has to hold for [n] at depth [d], read off the
    block stack. *)
Definition index_of_blocks (blocks : list (list NodeState)) (n : Node)
    (d : nat) : NodeState :=
  default NodeState_default (newest_in_block n (block_at blocks d)).

Definition index_corresponds (this : CPS) : Prop :=
  ∀ n d, Get (n, d) (states_ this) = index_of_blocks (blocks_ this) n d.

(** Every state of every block is set. *)
Definition all_set (blocks : list (list NodeState)) : Prop :=
  Forall (Forall (λ state, IsSet state = true)) blocks.

(** A stack that extends [base] by at least one block, the first of them
    started with the state [first]. *)
Definition extends_with (base : list (list NodeState)) (first : NodeState)
    (blocks : list (list NodeState)) : Prop :=
  ∃ above block, blocks = above ++ (block ++ [first]) :: base.

(** Two indices with the same entries up to depth [depth]. *)
Definition agree_up_to (depth : nat)
    (states1 states2 : gmap (Node * nat) NodeState) : Prop :=
  ∀ n d, d ≤ depth → Get (n, d) states1 = Get (n, d) states2.

(** The state that the last adding call for node [n] in [ops] passed. *)
Fixpoint last_added (n : Node) (ops : list (Op Node NodeState))
    : option NodeState :=
  match ops with
  | [] => None
  | op :: rest =>
      match last_added n rest with
      | Some state => Some state
      | None =>
          match op with
          | OpAddState n' state _ | OpAddStateInNewBlock n' state =>
              if decide (n' = n) then Some state else None
          | OpReset _ => None
          end
      end
  end.
End Sequences.

(** ** An instance of the template *)

Module Sample.
(** A state in the style of the clients of this header: the owner, with [0]
    for the null pointer, and a payload. *)
Record Fact := { fact_node : nat; fact_info : nat }.

#[global] Instance Fact_eq_dec : EqDecision Fact.
Proof. solve_decision. Defined.

#[global] Instance Fact_contract : NodeStateContract nat Fact := {|
  node := fact_node;
  IsSet := λ f, negb (Nat.eqb (fact_node f) 0);
  NodeState_default := {| fact_node := 0; fact_info := 0 |};
  IsSet_default := eq_refl;
|}.

Definition f1 : Fact := {| fact_node := 1; fact_info := 10 |}.
Definition f2 : Fact := {| fact_node := 2; fact_info := 20 |}.
Definition f3 : Fact := {| fact_node := 3; fact_info := 30 |}.
Definition f4 : Fact := {| fact_node := 4; fact_info := 40 |}.
Definition f1' : Fact := {| fact_node := 1; fact_info := 11 |}.

Definition f2' : Fact := {| fact_node := 2; fact_info := 21 |}.

Definition empty : ControlPathState nat Fact := empty_state.

(** The scenario of the specification: one region with [f1] and then [f2],
    and two branches that start a region each. *)
Definition region1 : ControlPathState nat Fact :=
  AddStateInNewBlock 1 f1 empty.

Definition base : ControlPathState nat Fact :=
  {| blocks_ := [[f2; f1]];
     states_ := PersistentMap.Set_ (2, 1) f2 (states_ region1) |}.

Definition branchA : ControlPathState nat Fact :=
  AddStateInNewBlock 3 f3 base.

Definition branchB : ControlPathState nat Fact :=
  AddStateInNewBlock 4 f4 base.

(** A sequence of calls that adds a second state for node 1. *)
Definition history : list (Op nat Fact) :=
  [OpAddStateInNewBlock 1 f1; OpAddState 2 f2 empty;
   OpAddStateInNewBlock 3 f3; OpAddState 1 f1' empty].

Definition after_history : ControlPathState nat Fact :=
  {| blocks_ := [[f1'; f3]; [f2; f1]];
     states_ := PersistentMap.Set_ (1, 2) f1'
                  (PersistentMap.Set_ (3, 2) f3 (states_ base)) |}.

(** A path state with the blocks of [after_history] and another index. *)
Definition equal_to_after_history : ControlPathState nat Fact :=
  {| blocks_ := blocks_ after_history; states_ := ∅ |}.

(** The path state [after_history] with one more entry in its index, which
    holds the default value. *)
Definition after_history_padded : ControlPathState nat Fact :=
  {| blocks_ := blocks_ after_history;
     states_ := PersistentMap.Set_ (9, 9) NodeState_default
                  (states_ after_history) |}.

(** A graph in which node 2 has node 1 as its control input, and a reducer
    that has reduced node 1. *)
Definition graph (n : nat) : list nat :=
  match n with
  | 2 => [1]
  | _ => []
  end.

Definition reducer0 : AdvancedReducerWithControlPathState nat Fact :=
  new_reducer.

Definition reducer1 : AdvancedReducerWithControlPathState nat Fact :=
  (UpdateStates 1 region1 reducer0).2.
End Sample.

(** * Properties *)

(** ** Loops *)

Section WhileLoop.
Context {St : Type}.
Variables (cond : St → bool) (body : St → result St).

(** An invariant of the body holds when the loop is left, and the loop is
    left only when its condition is false. *)
Lemma while_loop_invariant (Inv : St → Prop) fuel s s' :
  (∀ t t', Inv t → cond t = true → body t = Ok t' → Inv t') →
  Inv s →
  while_loop fuel cond body s = Ok s' →
  Inv s' ∧ cond s' = false.
Proof.
  intros Hstep. revert s. induction fuel as [|fuel IH]; intros s HI; simpl.
  - destruct (cond s) eqn:Hc; [done|]. intros [= <-]. done.
  - destruct (cond s) eqn:Hc; [|intros [= <-]; done].
    destruct (body s) as [t| |] eqn:Hb; simpl; [|done..].
    apply IH. by eapply Hstep.
Qed.

(** A body that returns and lowers a measure by at least one each time makes
    the loop return, given as much fuel as the measure. *)
Lemma while_loop_returns (Inv : St → Prop) (measure : St → nat) fuel s :
  (∀ t, Inv t → cond t = true →
        ∃ t', body t = Ok t' ∧ Inv t' ∧ measure t' < measure t) →
  Inv s →
  measure s ≤ fuel →
  ∃ s', while_loop fuel cond body s = Ok s'.
Proof.
  intros Hstep. revert s. induction fuel as [|fuel IH]; intros s HI Hm; simpl.
  - destruct (cond s) eqn:Hc; [|by eauto].
    destruct (Hstep s HI Hc) as (t & _ & _ & Hlt). lia.
  - destruct (cond s) eqn:Hc; [|by eauto].
    destruct (Hstep s HI Hc) as (t & -> & HIt & Hlt). simpl.
    apply IH; [done|lia].
Qed.

(** More fuel does not change a result. *)
Lemma while_loop_fuel_mono fuel fuel' s s' :
  fuel ≤ fuel' →
  while_loop fuel cond body s = Ok s' →
  while_loop fuel' cond body s = Ok s'.
Proof.
  revert fuel' s. induction fuel as [|fuel IH]; intros fuel' s Hle; simpl.
  - destruct (cond s) eqn:Hc; [done|]. intros [= <-].
    destruct fuel'; simpl; by rewrite Hc.
  - destruct (cond s) eqn:Hc.
    + destruct fuel' as [|fuel']; [lia|]. simpl. rewrite Hc.
      destruct (body s) as [t| |]; simpl; [|done..].
      apply IH. lia.
    + intros [= <-]. destruct fuel'; simpl; by rewrite Hc.
Qed.

(** Both together. *)
Lemma while_loop_total (Inv : St → Prop) (measure : St → nat) fuel s :
  (∀ t, Inv t → cond t = true →
        ∃ t', body t = Ok t' ∧ Inv t' ∧ measure t' < measure t) →
  Inv s →
  measure s ≤ fuel →
  ∃ s', while_loop fuel cond body s = Ok s' ∧ Inv s' ∧ cond s' = false.
Proof.
  intros Hstep HI Hm.
  destruct (while_loop_returns Inv measure fuel s Hstep HI Hm) as [s' Hs'].
  exists s'. split; [done|].
  apply (while_loop_invariant Inv fuel s s'); [|done..].
  intros t t' Ht Hc Hb. destruct (Hstep t Ht Hc) as (t'' & Hb' & Ht'' & _).
  congruence.
Qed.

Lemma while_loop_skip fuel s :
  cond s = false → while_loop fuel cond body s = Ok s.
Proof. intros Hc. destruct fuel; simpl; by rewrite Hc. Qed.
End WhileLoop.

(** ** The primitives *)

Section Primitives.
Context {A : Type} `{EqDecision A}.
Import FunctionalList.

(** The hint changes which cells are shared, not the list. *)
Lemma PushFrontHint_PushFront (a : A) hint l :
  PushFrontHint a hint l = a :: l.
Proof.
  unfold PushFrontHint, PushFront. destruct hint as [|top rest]; [done|].
  case_bool_decide as Hhint; [|done]. by destruct Hhint as (_ & -> & ->).
Qed.

Lemma equal_true (l1 l2 : list A) : equal l1 l2 = true ↔ l1 = l2.
Proof. unfold equal. apply bool_decide_eq_true. Qed.
End Primitives.

Section MapPrimitives.
Context {K V : Type} `{Countable K} `{EqDecision V}.
Variable def : V.
Import PersistentMap.

Lemma Get_Set (k k' : K) (v : V) (m : gmap K V) :
  Get def k' (Set_ k v m) = if decide (k = k') then v else Get def k' m.
Proof. unfold Get, Set_. rewrite lookup_insert. by case_decide. Qed.

Lemma Get_Set_eq (k : K) (v : V) (m : gmap K V) :
  Get def k (Set_ k v m) = v.
Proof. rewrite Get_Set. by case_decide. Qed.

Lemma Get_Set_ne (k k' : K) (v : V) (m : gmap K V) :
  k ≠ k' → Get def k' (Set_ k v m) = Get def k' m.
Proof. intros. rewrite Get_Set. by case_decide. Qed.

Lemma Get_empty (k : K) : Get def k (∅ : gmap K V) = def.
Proof. unfold Get. by rewrite lookup_empty. Qed.

Lemma no_entries_Get (m : gmap K V) :
  no_entries def m = true ↔ ∀ k, Get def k m = def.
Proof.
  unfold no_entries, Get. rewrite bool_decide_eq_true. split.
  - intros Hall k. destruct (m !! k) as [v|] eqn:Hk; [|done].
    exact (Hall k v Hk).
  - intros Hget k v Hk. specialize (Hget k). by rewrite Hk in Hget.
Qed.
End MapPrimitives.

(** ** The operations in closed form *)

Section Operations.
Context {Node NodeState : Type} `{Countable Node} `{EqDecision NodeState}.
Context `{!NodeStateContract Node NodeState}.

Local Abbreviation CPS := (ControlPathState Node NodeState).
Local Abbreviation Get := (PersistentMap.Get NodeState_default).
Local Abbreviation Set_ := PersistentMap.Set_.
Import FunctionalList.

Lemma AddState_cons n state (hint this : CPS) block rest :
  blocks_ this = block :: rest →
  AddState n state hint this =
    Ok {| blocks_ := (state :: block) :: rest;
          states_ := Set_ (n, S (length rest)) state (states_ this) |}.
Proof.
  intros Hb. unfold AddState. rewrite Hb. simpl.
  case_bool_decide as Hhint.
  - destruct (blocks_ hint) as [|hint_front ?]; [simpl in Hhint; lia|].
    simpl. by rewrite PushFrontHint_PushFront.
  - done.
Qed.

Lemma AddState_nil n state (hint this : CPS) :
  blocks_ this = [] → AddState n state hint this = Abort.
Proof. intros Hb. unfold AddState. by rewrite Hb. Qed.

Lemma drop_front_block_cons (this : CPS) block rest :
  blocks_ this = block :: rest →
  drop_front_block this =
    Ok {| blocks_ := rest;
          states_ := clear_block (S (length rest)) block (states_ this) |}.
Proof. intros Hb. unfold drop_front_block. by rewrite Hb. Qed.

Lemma Get_clear_block depth block states n d :
  Get (n, d) (clear_block depth block states) =
    if decide (d = depth ∧ n ∈ map node block)
    then NodeState_default else Get (n, d) states.
Proof.
  unfold clear_block. revert states.
  induction block as [|state block IH]; intros states; simpl.
  - case_decide as Hd; [|done]. destruct Hd as [_ Hin]. by inversion Hin.
  - rewrite IH, Get_Set.
    destruct (decide (d = depth ∧ n ∈ node state :: map node block))
      as [[-> Hin]|Hnot].
    + apply elem_of_cons in Hin as [->|Hin].
      * destruct (decide (_ ∧ _)); [done|]. by rewrite decide_True.
      * by rewrite decide_True.
    + rewrite decide_False.
      2: { intros [-> Hin]. apply Hnot. split; [done|].
           apply elem_of_cons. by right. }
      rewrite decide_False; [done|]. intros [= Hn ->]. apply Hnot.
      split; [done|]. apply elem_of_cons. by left.
Qed.

Lemma newest_in_block_None n block :
  newest_in_block n block = None ↔ n ∉ map node block.
Proof.
  induction block as [|state block IH]; simpl.
  - split; [|done]. intros _ Hin. by inversion Hin.
  - case_decide as Hn.
    + split; [done|]. intros Hnot. destruct Hnot. apply elem_of_cons. by left.
    + rewrite IH. split.
      * intros Hnot Hin. apply elem_of_cons in Hin as [Heq|Hin]; by eauto.
      * intros Hnot Hin. apply Hnot, elem_of_cons. by right.
Qed.

Lemma newest_in_block_node n block state :
  newest_in_block n block = Some state → node state = n ∧ state ∈ block.
Proof.
  induction block as [|state' block IH]; simpl; [done|].
  case_decide.
  - intros [= <-]. split; [done|]. apply elem_of_cons. by left.
  - intros Hn. destruct (IH Hn). split; [done|]. apply elem_of_cons. by right.
Qed.

Lemma newest_in_block_app n block1 block2 :
  newest_in_block n (block1 ++ block2) =
    match newest_in_block n block1 with
    | Some state => Some state
    | None => newest_in_block n block2
    end.
Proof.
  induction block1 as [|state block1 IH]; simpl; [done|]. by case_decide.
Qed.

Lemma block_at_out_of_range (blocks : list (list NodeState)) d :
  d = 0 ∨ length blocks < d → block_at blocks d = [].
Proof.
  induction blocks as [|block rest IH]; simpl; [done|].
  intros Hd. case_decide; [lia|]. apply IH. lia.
Qed.

Lemma index_of_blocks_out_of_range (blocks : list (list NodeState)) n d :
  d = 0 ∨ length blocks < d → index_of_blocks blocks n d = NodeState_default.
Proof.
  intros Hd. unfold index_of_blocks. by rewrite block_at_out_of_range.
Qed.

Lemma index_of_blocks_cons block (rest : list (list NodeState)) n d :
  index_of_blocks (block :: rest) n d =
    if decide (d = S (length rest))
    then default NodeState_default (newest_in_block n block)
    else index_of_blocks rest n d.
Proof. unfold index_of_blocks. simpl. by case_decide. Qed.
End Operations.

(** ** The debug check and invariant I1 *)

Section Invariant.
Context {Node NodeState : Type} `{Countable Node} `{EqDecision NodeState}.
Context `{!NodeStateContract Node NodeState}.

Local Abbreviation CPS := (ControlPathState Node NodeState).
Local Abbreviation Get := (PersistentMap.Get NodeState_default).
Local Abbreviation Set_ := PersistentMap.Set_.
Import FunctionalList.

Lemma not_seen_insert (n n' : Node) (seen : gset Node) :
  n ∉ {[n']} ∪ seen ↔ n ≠ n' ∧ n ∉ seen.
Proof. by rewrite not_elem_of_union, not_elem_of_singleton. Qed.

(** What a successful pass over one block has checked, and what it has
    removed from the copy. *)
Lemma check_block_Some depth block seen copy copy' :
  check_block depth block seen copy = Some copy' →
  (∀ n state, n ∉ seen → newest_in_block n block = Some state →
              Get (n, depth) copy = state) ∧
  (∀ n d, Get (n, d) copy' =
          if decide (d = depth ∧ (n ∉ seen) ∧ n ∈ map node block)
          then NodeState_default else Get (n, d) copy).
Proof.
  revert seen copy.
  induction block as [|state block IH]; intros seen copy; simpl.
  - intros [= <-]. split; [done|]. intros n d.
    rewrite decide_False; [done|]. intros (_ & _ & Hin). by inversion Hin.
  - destruct (decide (node state ∈ seen)) as [Hseen|Hseen].
    + intros Hc. destruct (IH _ _ Hc) as [IH1 IH2]. split.
      * intros n st Hn. case_decide as Hst; [by subst|]. by apply IH1.
      * intros n d. rewrite IH2.
        destruct (decide (d = depth ∧ (n ∉ seen) ∧ n ∈ map node block))
          as [(-> & Hn & Hin)|Hnot].
        -- rewrite decide_True; [done|]. repeat split; [done|].
           apply elem_of_cons. by right.
        -- rewrite decide_False; [done|]. intros (-> & Hn & Hin).
           apply elem_of_cons in Hin as [->|Hin]; [done|]. by apply Hnot.
    + destruct (decide (Get (node state, depth) copy = state))
        as [Hget|Hget]; [|done].
      intros Hc. destruct (IH _ _ Hc) as [IH1 IH2]. split.
      * intros n st Hn. case_decide as Hst; [by intros [= <-]; subst|].
        intros Hnew. rewrite <- (IH1 n st); [|by apply not_seen_insert|done].
        rewrite Get_Set_ne; [done|]. by intros [= ?].
      * intros n d. rewrite IH2, Get_Set.
        destruct (decide (d = depth ∧ (n ∉ seen) ∧
                          n ∈ node state :: map node block))
          as [(-> & Hn & Hin)|Hnot].
        -- destruct (decide (n = node state)) as [->|Hne].
           ++ rewrite decide_False; [by rewrite decide_True|].
              intros (_ & Hnot & _). by apply not_seen_insert in Hnot as [].
           ++ apply elem_of_cons in Hin as [?|Hin]; [done|].
              rewrite decide_True; [done|]. repeat split; [|done].
              by apply not_seen_insert.
        -- rewrite decide_False.
           2: { intros (-> & Hn & Hin). apply Hnot.
                apply not_seen_insert in Hn as [_ Hn].
                repeat split; [done|]. apply elem_of_cons. by right. }
           rewrite decide_False; [done|]. intros [= <- <-]. apply Hnot.
           repeat split; [done|]. apply elem_of_cons. by left.
Qed.

(** The pass over one block succeeds when every newest state of a node that
    was not seen is the entry of the copy. *)
Lemma check_block_is_Some depth block seen copy :
  (∀ n state, n ∉ seen → newest_in_block n block = Some state →
              Get (n, depth) copy = state) →
  is_Some (check_block depth block seen copy).
Proof.
  revert seen copy.
  induction block as [|state block IH]; intros seen copy Hall; simpl.
  - by eexists.
  - destruct (decide (node state ∈ seen)) as [Hseen|Hseen].
    + apply IH. intros n st Hn Hnew. apply Hall; [done|]. simpl.
      case_decide; [by subst|done].
    + rewrite decide_True.
      2: { apply Hall; [done|]. simpl. by rewrite decide_True. }
      apply IH. intros n st Hn Hnew.
      apply not_seen_insert in Hn as [Hne Hn].
      rewrite Get_Set_ne; [|by intros [= ?]].
      apply Hall; [done|]. simpl. by rewrite decide_False.
Qed.

Lemma block_at_cons_ne block (rest : list (list NodeState)) d :
  d ≠ S (length rest) → block_at (block :: rest) d = block_at rest d.
Proof. intros. simpl. by rewrite decide_False. Qed.

Lemma block_at_cons_eq block (rest : list (list NodeState)) :
  block_at (block :: rest) (S (length rest)) = block.
Proof. simpl. by rewrite decide_True. Qed.

(** The same for the pass over all blocks, entered with the size of the
    list as depth. *)
Lemma check_blocks_Some blocks copy copy' :
  check_blocks (length blocks) blocks copy = Some copy' →
  (∀ n d state, newest_in_block n (block_at blocks d) = Some state →
                Get (n, d) copy = state) ∧
  (∀ n d, Get (n, d) copy' =
          if decide (n ∈ map node (block_at blocks d))
          then NodeState_default else Get (n, d) copy).
Proof.
  revert copy.
  induction blocks as [|block rest IH]; intros copy Hcheck;
    simpl in Hcheck.
  - injection Hcheck as <-. by split.
  - destruct (check_block _ block ∅ copy) as [copy1|] eqn:Hblock; [|done].
    apply check_block_Some in Hblock as [Hb1 Hb2].
    apply IH in Hcheck as [Hr1 Hr2]. split.
    + intros n d state.
      destruct (decide (d = S (length rest))) as [->|Hd].
      * rewrite block_at_cons_eq. by apply Hb1.
      * rewrite block_at_cons_ne by done.
        intros Hnew. rewrite <- (Hr1 n d state Hnew), Hb2.
        rewrite decide_False; [done|]. by intros (? & _).
    + intros n d. rewrite Hr2, Hb2.
      destruct (decide (d = S (length rest))) as [->|Hd].
      * rewrite block_at_cons_eq, block_at_out_of_range by lia.
        rewrite (decide_False (P := n ∈ map node []));
          [|intros Hin; by inversion Hin].
        destruct (decide (n ∈ map node block)) as [Hin|Hin].
        -- by rewrite decide_True.
        -- rewrite decide_False; [done|]. by intros (_ & _ & ?).
      * rewrite block_at_cons_ne by done.
        rewrite (decide_False (P := d = _ ∧ _)); [done|]. by intros (? & _).
Qed.

Lemma check_blocks_is_Some blocks copy :
  (∀ n d state, newest_in_block n (block_at blocks d) = Some state →
                Get (n, d) copy = state) →
  is_Some (check_blocks (length blocks) blocks copy).
Proof.
  revert copy.
  induction blocks as [|block rest IH]; intros copy Hall; simpl.
  - by eexists.
  - destruct (check_block_is_Some (S (length rest)) block ∅ copy)
      as [copy1 Hblock].
    { intros n state _ Hnew. apply Hall. by rewrite block_at_cons_eq. }
    rewrite Hblock. apply check_block_Some in Hblock as [_ Hb2].
    apply IH. intros n d state Hnew.
    assert (d ≠ S (length rest)) as Hd.
    { intros ->. rewrite block_at_out_of_range in Hnew by lia. done. }
    rewrite Hb2, decide_False; [|by intros (? & _)].
    apply Hall. by rewrite block_at_cons_ne.
Qed.

(** The debug check decides invariant I1. *)
Lemma BlocksAndStatesInvariant_iff (this : CPS) :
  BlocksAndStatesInvariant this = true ↔ index_corresponds this.
Proof.
  unfold BlocksAndStatesInvariant, index_corresponds, index_of_blocks, Size.
  split.
  - destruct (check_blocks _ _ _) as [copy|] eqn:Hcheck; [|done].
    rewrite no_entries_Get. intros Hnone n d.
    apply check_blocks_Some in Hcheck as [Hc1 Hc2].
    destruct (newest_in_block n (block_at (blocks_ this) d))
      as [state|] eqn:Hnew; simpl.
    + by apply Hc1.
    + specialize (Hnone (n, d)). rewrite Hc2 in Hnone.
      rewrite decide_False in Hnone; [done|].
      by apply newest_in_block_None.
  - intros Hidx.
    destruct (check_blocks_is_Some (blocks_ this) (states_ this))
      as [copy Hcheck].
    { intros n d state Hnew. by rewrite Hidx, Hnew. }
    rewrite Hcheck. apply no_entries_Get. intros [n d].
    apply check_blocks_Some in Hcheck as [_ Hc2]. rewrite Hc2.
    case_decide as Hin; [done|]. apply newest_in_block_None in Hin.
    by rewrite Hidx, Hin.
Qed.

(** *** The invariant is kept *)

Lemma index_corresponds_empty : index_corresponds (empty_state : CPS).
Proof. intros n d. simpl. apply Get_empty. Qed.

Lemma index_corresponds_AddStateInNewBlock n state (this : CPS) :
  node state = n →
  index_corresponds this →
  index_corresponds (AddStateInNewBlock n state this).
Proof.
  intros Hnode Hidx m d. unfold AddStateInNewBlock, PushFront, Size. simpl.
  rewrite index_of_blocks_cons, Get_Set. simpl.
  destruct (decide (d = S (length (blocks_ this)))) as [->|Hd].
  - destruct (decide (n = m)) as [->|Hne].
    + rewrite !decide_True; [done|done|f_equal; lia].
    + rewrite !decide_False; [|congruence|by intros [= ?]].
      rewrite Hidx. apply index_of_blocks_out_of_range. lia.
  - rewrite decide_False; [by apply Hidx|]. intros [= ? ?]. lia.
Qed.

Lemma index_corresponds_AddState n state (hint this this' : CPS) :
  node state = n →
  index_corresponds this →
  AddState n state hint this = Ok this' →
  index_corresponds this'.
Proof.
  intros Hnode Hidx Hadd m d.
  destruct (blocks_ this) as [|block rest] eqn:Hb.
  { by rewrite AddState_nil in Hadd. }
  rewrite (AddState_cons _ _ _ _ _ _ Hb) in Hadd. injection Hadd as <-.
  simpl. rewrite index_of_blocks_cons, Get_Set. simpl.
  specialize (Hidx m d). rewrite Hb, index_of_blocks_cons in Hidx.
  destruct (decide (d = S (length rest))) as [->|Hd].
  - destruct (decide (n = m)) as [->|Hne].
    + by rewrite !decide_True.
    + rewrite !decide_False; [done|congruence|by intros [= ?]].
  - rewrite decide_False; [done|]. by intros [= ? ?].
Qed.

Lemma index_corresponds_drop_front_block (this this' : CPS) :
  index_corresponds this →
  drop_front_block this = Ok this' →
  index_corresponds this'.
Proof.
  intros Hidx Hdrop m d.
  destruct (blocks_ this) as [|block rest] eqn:Hb.
  { unfold drop_front_block in Hdrop. by rewrite Hb in Hdrop. }
  rewrite (drop_front_block_cons _ _ _ Hb) in Hdrop. injection Hdrop as <-.
  simpl. rewrite Get_clear_block.
  specialize (Hidx m d). rewrite Hb, index_of_blocks_cons in Hidx.
  destruct (decide (d = S (length rest))) as [->|Hd].
  - rewrite index_of_blocks_out_of_range by lia.
    case_decide as Hin; [done|]. rewrite Hidx.
    assert (newest_in_block m block = None) as ->; [|done].
    apply newest_in_block_None. intros ?. by apply Hin.
  - rewrite decide_False; [done|]. by intros (? & _).
Qed.
End Invariant.

(** ** [ResetToCommonAncestor] *)

Section Reset.
Context {Node NodeState : Type} `{Countable Node} `{EqDecision NodeState}.
Context `{!NodeStateContract Node NodeState}.

Local Abbreviation CPS := (ControlPathState Node NodeState).
Local Abbreviation Get := (PersistentMap.Get NodeState_default).
Import FunctionalList.

Lemma neqb_true (this other : CPS) :
  neqb this other = true ↔ blocks_ this ≠ blocks_ other.
Proof.
  unfold neqb, eqb, equal. rewrite negb_true_iff. apply bool_decide_eq_false.
Qed.

Lemma neqb_false (this other : CPS) :
  neqb this other = false ↔ blocks_ this = blocks_ other.
Proof.
  unfold neqb, eqb, equal. rewrite negb_false_iff. apply bool_decide_eq_true.
Qed.

Lemma drop_front_block_Size (this this' : CPS) :
  drop_front_block this = Ok this' →
  Size (blocks_ this) = S (Size (blocks_ this')).
Proof.
  destruct (blocks_ this) as [|block rest] eqn:Hb.
  { unfold drop_front_block. by rewrite Hb. }
  rewrite (drop_front_block_cons _ _ _ Hb). by intros [= <-].
Qed.

Lemma drop_front_block_returns (this : CPS) :
  0 < Size (blocks_ this) → ∃ this', drop_front_block this = Ok this'.
Proof.
  destruct (blocks_ this) as [|block rest] eqn:Hb; simpl; [lia|].
  intros _. rewrite (drop_front_block_cons _ _ _ Hb). by eexists.
Qed.

(** Each iteration of each of the three loops returns and makes one of the
    two stacks shorter; the third loop is entered with stacks of the same
    size. *)
Lemma trim_other_body_decreases (p : CPS * CPS) :
  trim_other_cond p = true →
  ∃ p', trim_other_body p = Ok p' ∧ p'.1 = p.1 ∧
        Size (blocks_ p.2) = S (Size (blocks_ p'.2)).
Proof.
  unfold trim_other_cond, trim_other_body. rewrite bool_decide_eq_true.
  destruct (blocks_ p.2) as [|block rest]; simpl; [lia|].
  intros _. by eexists.
Qed.

Lemma trim_this_body_decreases (p : CPS * CPS) :
  trim_this_cond p = true →
  ∃ p', trim_this_body p = Ok p' ∧ p'.2 = p.2 ∧
        Size (blocks_ p.1) = S (Size (blocks_ p'.1)).
Proof.
  unfold trim_this_cond, trim_this_body. rewrite bool_decide_eq_true.
  intros Hlt. destruct (drop_front_block_returns p.1) as [this' Hdrop].
  { lia. }
  rewrite Hdrop. simpl. eexists. split; [done|]. split; [done|].
  by apply drop_front_block_Size.
Qed.

Lemma lockstep_body_decreases (p : CPS * CPS) :
  Size (blocks_ p.1) = Size (blocks_ p.2) →
  lockstep_cond p = true →
  ∃ p', lockstep_body p = Ok p' ∧
        Size (blocks_ p.1) = S (Size (blocks_ p'.1)) ∧
        Size (blocks_ p.2) = S (Size (blocks_ p'.2)).
Proof.
  unfold lockstep_cond, lockstep_body. rewrite neqb_true.
  intros Hsize Hne.
  destruct (blocks_ p.2) as [|block2 rest2] eqn:Hb2.
  { destruct (blocks_ p.1); [done|]. simpl in Hsize. lia. }
  destruct (drop_front_block_returns p.1) as [this' Hdrop].
  { rewrite Hsize. simpl. lia. }
  rewrite Hdrop. simpl. eexists. split; [done|]. split; [|done].
  by apply drop_front_block_Size.
Qed.

(** The rule of [ResetToCommonAncestor]: with fuel for as many iterations as
    there are blocks, the call returns; a property of the two stacks that
    every iteration keeps holds at the end, where the two stacks are
    equal. *)
Lemma ResetToCommonAncestor_fuel_rule (J : CPS * CPS → Prop) fuel
    (other this : CPS) :
  Size (blocks_ this) + Size (blocks_ other) ≤ fuel →
  (∀ p p', J p → trim_other_cond p = true → trim_other_body p = Ok p' →
           J p') →
  (∀ p p', J p → trim_this_cond p = true → trim_this_body p = Ok p' →
           J p') →
  (∀ p p', J p → Size (blocks_ p.1) = Size (blocks_ p.2) →
           lockstep_cond p = true → lockstep_body p = Ok p' → J p') →
  J (this, other) →
  ∃ p, ResetToCommonAncestor_fuel fuel other this = Ok p.1 ∧ J p ∧
       blocks_ p.1 = blocks_ p.2.
Proof.
  intros Hfuel Hstep1 Hstep2 Hstep3 HJ.
  destruct (while_loop_total trim_other_cond trim_other_body
    (λ p, J p ∧ p.1 = this ∧ Size (blocks_ p.2) ≤ Size (blocks_ other))
    (λ p, Size (blocks_ p.2)) fuel (this, other))
    as (p1 & Hloop1 & (HJ1 & Hthis1 & _) & Hc1).
  { intros p (HJp & Hp1 & Hp2) Hc.
    destruct (trim_other_body_decreases p Hc) as (p' & Hb & Hp'1 & Hp'2).
    exists p'. split; [done|]. split; [|lia].
    split; [by eapply Hstep1|]. split; [congruence|lia]. }
  { done. }
  { simpl. lia. }
  unfold trim_other_cond in Hc1. rewrite bool_decide_eq_false in Hc1.
  destruct (while_loop_total trim_this_cond trim_this_body
    (λ p, J p ∧ Size (blocks_ p.2) ≤ Size (blocks_ p.1) ∧
          Size (blocks_ p.1) ≤ Size (blocks_ this))
    (λ p, Size (blocks_ p.1)) fuel p1)
    as (p2 & Hloop2 & (HJ2 & Hle2 & Hthis2) & Hc2).
  { intros p (HJp & Hp1 & Hp2) Hc.
    destruct (trim_this_body_decreases p Hc) as (p' & Hb & Hp'2 & Hp'1).
    pose proof (Hstep2 p p' HJp Hc Hb) as HJp'.
    unfold trim_this_cond in Hc. rewrite bool_decide_eq_true in Hc.
    exists p'. split; [done|]. split; [|lia].
    split; [done|]. rewrite Hp'2. lia. }
  { split; [done|]. split; [lia|]. by rewrite Hthis1. }
  { simpl. rewrite Hthis1. lia. }
  unfold trim_this_cond in Hc2. rewrite bool_decide_eq_false in Hc2.
  destruct (while_loop_total lockstep_cond lockstep_body
    (λ p, J p ∧ Size (blocks_ p.1) = Size (blocks_ p.2) ∧
          Size (blocks_ p.1) ≤ Size (blocks_ this))
    (λ p, Size (blocks_ p.1)) fuel p2)
    as (p3 & Hloop3 & (HJ3 & _) & Hc3).
  { intros p (HJp & Hp1 & Hp2) Hc.
    destruct (lockstep_body_decreases p Hp1 Hc) as (p' & Hb & Hp'1 & Hp'2).
    exists p'. split; [done|]. split; [|lia].
    split; [by eapply Hstep3|]. lia. }
  { split; [done|]. lia. }
  { lia. }
  exists p3. unfold ResetToCommonAncestor_fuel.
  rewrite Hloop1. simpl. rewrite Hloop2. simpl. rewrite Hloop3. simpl.
  split; [done|]. split; [done|]. by apply neqb_false.
Qed.

Lemma ResetToCommonAncestor_rule (J : CPS * CPS → Prop) (other this : CPS) :
  (∀ p p', J p → trim_other_cond p = true → trim_other_body p = Ok p' →
           J p') →
  (∀ p p', J p → trim_this_cond p = true → trim_this_body p = Ok p' →
           J p') →
  (∀ p p', J p → Size (blocks_ p.1) = Size (blocks_ p.2) →
           lockstep_cond p = true → lockstep_body p = Ok p' → J p') →
  J (this, other) →
  ∃ p, ResetToCommonAncestor other this = Ok p.1 ∧ J p ∧
       blocks_ p.1 = blocks_ p.2.
Proof. by apply ResetToCommonAncestor_fuel_rule. Qed.

(** The call returns. *)
Lemma ResetToCommonAncestor_returns (other this : CPS) :
  ∃ this', ResetToCommonAncestor other this = Ok this'.
Proof.
  destruct (ResetToCommonAncestor_rule (λ _, True) other this)
    as (p & Hp & _); by eauto.
Qed.

(** A property of the receiver that dropping its front block keeps holds
    after the call. *)
Lemma ResetToCommonAncestor_keeps (J : CPS → Prop) (other this this' : CPS) :
  (∀ t t', J t → drop_front_block t = Ok t' → J t') →
  J this →
  ResetToCommonAncestor other this = Ok this' →
  J this'.
Proof.
  intros Hdrop HJ Hreset.
  destruct (ResetToCommonAncestor_rule (λ p, J p.1) other this)
    as (p & Hp & HJp & _); simpl; try done.
  - intros p p' HJp _. unfold trim_other_body.
    destruct (DropFront _); simpl; [|done..]. by intros [= <-].
  - intros p p' HJp _. unfold trim_this_body.
    destruct (drop_front_block p.1) as [t| |] eqn:Ht; simpl; [|done..].
    intros [= <-]. by eapply Hdrop.
  - intros p p' HJp _ _. unfold lockstep_body.
    destruct (drop_front_block p.1) as [t| |] eqn:Ht; simpl; [|done..].
    destruct (DropFront _); simpl; [|done..]. intros [= <-]. by eapply Hdrop.
  - congruence.
Qed.

Lemma index_corresponds_ResetToCommonAncestor (other this this' : CPS) :
  index_corresponds this →
  ResetToCommonAncestor other this = Ok this' →
  index_corresponds this'.
Proof.
  apply ResetToCommonAncestor_keeps.
  intros t t'. apply index_corresponds_drop_front_block.
Qed.

(** Without a difference between the two stacks no loop is entered. *)
Lemma ResetToCommonAncestor_equal (other this : CPS) :
  blocks_ this = blocks_ other →
  ResetToCommonAncestor other this = Ok this.
Proof.
  intros Heq. unfold ResetToCommonAncestor, ResetToCommonAncestor_fuel.
  rewrite while_loop_skip.
  2: { unfold trim_other_cond. simpl. rewrite Heq.
       apply bool_decide_eq_false. lia. }
  simpl. rewrite while_loop_skip.
  2: { unfold trim_this_cond. simpl. rewrite Heq.
       apply bool_decide_eq_false. lia. }
  simpl. rewrite while_loop_skip; [done|]. by apply neqb_false.
Qed.
End Reset.

(** ** [LookupState] *)

Section Lookup.
Context {Node NodeState : Type} `{Countable Node} `{EqDecision NodeState}.
Context `{!NodeStateContract Node NodeState}.

Local Abbreviation CPS := (ControlPathState Node NodeState).
Local Abbreviation Get := (PersistentMap.Get NodeState_default).
Local Abbreviation Set_ := PersistentMap.Set_.
Import FunctionalList.

(** The loop reads the entries of [n] at the depths it passes only. *)
Lemma LookupState_from_ext n states1 states2 depth :
  (∀ d, 1 ≤ d ≤ depth → Get (n, d) states1 = Get (n, d) states2) →
  LookupState_from n states1 depth = LookupState_from n states2 depth.
Proof.
  induction depth as [|depth IH]; intros Hagree; simpl; [done|].
  rewrite Hagree by lia. destruct (IsSet _); [done|]. apply IH.
  intros d Hd. apply Hagree. lia.
Qed.

(** The loop returns the entry of the greatest depth that is set, and the
    default value when there is none. *)
Lemma LookupState_from_scan n states depth :
  (∃ d, 1 ≤ d ≤ depth ∧
        LookupState_from n states depth = Get (n, d) states ∧
        IsSet (Get (n, d) states) = true ∧
        ∀ d', d < d' ≤ depth → IsSet (Get (n, d') states) = false) ∨
  (LookupState_from n states depth = NodeState_default ∧
   ∀ d, 1 ≤ d ≤ depth → IsSet (Get (n, d) states) = false).
Proof.
  induction depth as [|depth IH]; simpl.
  - right. split; [done|]. intros d Hd. lia.
  - destruct (IsSet (Get (n, S depth) states)) eqn:Hset.
    + left. exists (S depth). repeat split; [lia|lia|done|]. intros d' Hd'. lia.
    + destruct IH as [(d & Hd & Heq & Hd_set & Hafter)|[Heq Hnone]].
      * left. exists d. repeat split; [lia|lia|done|done|].
        intros d' Hd'. destruct (decide (d' = S depth)) as [->|Hne]; [done|].
        apply Hafter. lia.
      * right. split; [done|]. intros d Hd.
        destruct (decide (d = S depth)) as [->|Hne]; [done|].
        apply Hnone. lia.
Qed.

Lemma LookupState_from_unset n states depth :
  (∀ d, 1 ≤ d ≤ depth → IsSet (Get (n, d) states) = false) →
  LookupState_from n states depth = NodeState_default.
Proof.
  induction depth as [|depth IH]; intros Hnone; simpl; [done|].
  rewrite Hnone by lia. apply IH. intros d Hd. apply Hnone. lia.
Qed.

(** With the index in correspondence and set states only, the loop finds
    the newest state of [n] in the stack, read from its front. *)
Lemma LookupState_from_newest n states blocks :
  (∀ d, 1 ≤ d ≤ length blocks →
        Get (n, d) states = index_of_blocks blocks n d) →
  all_set blocks →
  LookupState_from n states (length blocks) =
    default NodeState_default (newest_in_block n (concat blocks)).
Proof.
  induction blocks as [|block rest IH]; intros Hidx Hset; [done|].
  apply Forall_cons in Hset as [Hblock Hrest].
  cbn [length LookupState_from concat]. rewrite newest_in_block_app.
  rewrite Hidx by (simpl; lia). rewrite index_of_blocks_cons.
  rewrite decide_True by done.
  destruct (newest_in_block n block) as [state|] eqn:Hnew; simpl.
  - apply newest_in_block_node in Hnew as [_ Hin].
    rewrite Forall_forall in Hblock. by rewrite (Hblock state Hin).
  - rewrite IsSet_default. apply IH; [|done].
    intros d Hd. rewrite Hidx by (simpl; lia).
    rewrite index_of_blocks_cons, decide_False; [done|lia].
Qed.

Lemma LookupState_newest n (this : CPS) :
  index_corresponds this →
  all_set (blocks_ this) →
  LookupState n this =
    default NodeState_default (newest_in_block n (concat (blocks_ this))).
Proof.
  intros Hidx Hset. apply LookupState_from_newest; [|done].
  intros d _. apply Hidx.
Qed.

Lemma block_at_subseteq (blocks : list (list NodeState)) d state :
  state ∈ block_at blocks d → state ∈ concat blocks.
Proof.
  induction blocks as [|block rest IH]; simpl; [done|].
  rewrite elem_of_app. case_decide; by eauto.
Qed.

(** With the index in correspondence, a node without a state in the stack
    has the default value. *)
Lemma LookupState_absent n (this : CPS) :
  index_corresponds this →
  newest_in_block n (concat (blocks_ this)) = None →
  LookupState n this = NodeState_default.
Proof.
  intros Hidx Hnone. apply LookupState_from_unset. intros d _.
  rewrite Hidx. unfold index_of_blocks.
  destruct (newest_in_block n (block_at (blocks_ this) d))
    as [state|] eqn:Hnew; simpl; [|apply IsSet_default].
  apply newest_in_block_node in Hnew as [Hnode Hin].
  apply block_at_subseteq in Hin.
  apply newest_in_block_None in Hnone. destruct Hnone.
  rewrite <- Hnode. apply list_elem_of_fmap. by exists state.
Qed.
End Lookup.

(** ** Sequences of calls *)

Section SequenceFacts.
Context {Node NodeState : Type} `{Countable Node} `{EqDecision NodeState}.
Context `{!NodeStateContract Node NodeState}.

Local Abbreviation CPS := (ControlPathState Node NodeState).
Local Abbreviation Get := (PersistentMap.Get NodeState_default).
Local Abbreviation Set_ := PersistentMap.Set_.
Import FunctionalList.

(** A state is well formed when its index corresponds to its blocks and all
    its states are set. *)
Lemma well_formed_apply_op op (this this' : CPS) :
  adds_own_fact op = true →
  index_corresponds this ∧ all_set (blocks_ this) →
  apply_op op this = Ok this' →
  index_corresponds this' ∧ all_set (blocks_ this').
Proof.
  intros Hop [Hidx Hset]. destruct op as [n state hint|n state|other]; simpl.
  - simpl in Hop. apply andb_true_iff in Hop as [Hstate Hnode].
    apply bool_decide_eq_true in Hnode. intros Hadd. split.
    { by eapply index_corresponds_AddState. }
    destruct (blocks_ this) as [|block rest] eqn:Hb.
    { by rewrite AddState_nil in Hadd. }
    rewrite (AddState_cons _ _ _ _ _ _ Hb) in Hadd. injection Hadd as <-.
    simpl. apply Forall_cons in Hset as [Hblock Hrest].
    apply Forall_cons. split; [|done]. by apply Forall_cons.
  - simpl in Hop. apply andb_true_iff in Hop as [Hstate Hnode].
    apply bool_decide_eq_true in Hnode. intros [= <-]. split.
    { by apply index_corresponds_AddStateInNewBlock. }
    simpl. apply Forall_cons. split; [|done]. by apply Forall_cons.
  - intros Hreset. split.
    { by eapply index_corresponds_ResetToCommonAncestor. }
    revert Hreset.
    apply (ResetToCommonAncestor_keeps (λ t, all_set (blocks_ t))); [|done].
    intros t t' Ht Hdrop.
    destruct (blocks_ t) as [|block rest] eqn:Hb.
    { unfold drop_front_block in Hdrop. by rewrite Hb in Hdrop. }
    rewrite (drop_front_block_cons _ _ _ Hb) in Hdrop.
    injection Hdrop as <-. simpl. by apply Forall_cons in Ht as [_ ?].
Qed.

Lemma well_formed_run_ops ops (this this' : CPS) :
  forallb adds_own_fact ops = true →
  index_corresponds this ∧ all_set (blocks_ this) →
  run_ops ops this = Ok this' →
  index_corresponds this' ∧ all_set (blocks_ this').
Proof.
  revert this. induction ops as [|op ops IH]; intros this Hops Hwf; simpl.
  - by intros [= <-].
  - simpl in Hops. apply andb_true_iff in Hops as [Hop Hops].
    destruct (apply_op op this) as [this1| |] eqn:Hthis1; simpl; [|done..].
    apply IH; [done|]. by eapply well_formed_apply_op.
Qed.

(** An adding call puts its state in front of all others. *)
Lemma apply_op_add_newest op (this this' : CPS) n :
  is_add op = true →
  adds_own_fact op = true →
  apply_op op this = Ok this' →
  newest_in_block n (concat (blocks_ this')) =
    match last_added n [op] with
    | Some state => Some state
    | None => newest_in_block n (concat (blocks_ this))
    end.
Proof.
  intros Hadd Hop.
  destruct op as [n' state hint|n' state|other]; simpl; [| |done].
  - simpl in Hop. apply andb_true_iff in Hop as [_ Hnode].
    apply bool_decide_eq_true in Hnode. intros Happly.
    destruct (blocks_ this) as [|block rest] eqn:Hb.
    { by rewrite AddState_nil in Happly. }
    rewrite (AddState_cons _ _ _ _ _ _ Hb) in Happly.
    injection Happly as <-. simpl. rewrite Hnode. by case_decide.
  - simpl in Hop. apply andb_true_iff in Hop as [_ Hnode].
    apply bool_decide_eq_true in Hnode. intros [= <-].
    simpl. rewrite Hnode. by case_decide.
Qed.

Lemma run_ops_add_newest ops (this this' : CPS) n :
  forallb is_add ops = true →
  forallb adds_own_fact ops = true →
  run_ops ops this = Ok this' →
  newest_in_block n (concat (blocks_ this')) =
    match last_added n ops with
    | Some state => Some state
    | None => newest_in_block n (concat (blocks_ this))
    end.
Proof.
  revert this. induction ops as [|op ops IH]; intros this Hadd Hops.
  - by intros [= <-].
  - simpl in Hadd, Hops.
    apply andb_true_iff in Hadd as [Hadd1 Hadd].
    apply andb_true_iff in Hops as [Hop Hops].
    cbn [run_ops].
    destruct (apply_op op this) as [this1| |] eqn:Hthis1; simpl; [|done..].
    intros Hrun. rewrite (IH _ Hadd Hops Hrun).
    destruct (last_added n ops) as [state|]; [done|].
    by rewrite (apply_op_add_newest _ _ _ n Hadd1 Hop Hthis1).
Qed.
End SequenceFacts.

(** ** Narrowing two branches *)

Section Narrowing.
Context {Node NodeState : Type} `{Countable Node} `{EqDecision NodeState}.
Context `{!NodeStateContract Node NodeState}.

Local Abbreviation CPS := (ControlPathState Node NodeState).
Local Abbreviation Get := (PersistentMap.Get NodeState_default).
Local Abbreviation Set_ := PersistentMap.Set_.
Import FunctionalList.

Variable base : CPS.

Local Abbreviation above_base first this :=
  (extends_with (blocks_ base) first (blocks_ this) ∧
   agree_up_to (length (blocks_ base)) (states_ this) (states_ base)).

Lemma extends_with_length first blocks :
  extends_with (blocks_ base) first blocks →
  length (blocks_ base) < length blocks.
Proof.
  intros (above & block & ->). rewrite length_app. simpl. lia.
Qed.

(** Starting a block on top of [base], and adding to a stack above
    [base], gives a stack above [base]. *)
Lemma above_base_AddStateInNewBlock n state :
  above_base state (AddStateInNewBlock n state base).
Proof.
  split.
  - by exists [], [].
  - intros m d Hd. simpl. rewrite Get_Set_ne; [done|].
    intros [= _ <-]. unfold Size in Hd. lia.
Qed.

Lemma above_base_apply_op first op (this : CPS) :
  is_add op = true →
  above_base first this →
  ∃ this', apply_op op this = Ok this' ∧ above_base first this'.
Proof.
  intros Hadd [Hext Hagree]. pose proof (extends_with_length _ _ Hext) as Hlen.
  destruct Hext as (above & block & Hb).
  destruct op as [n state hint|n state|other]; simpl; [| |done].
  - destruct above as [|front above]; simpl in Hb.
    + rewrite (AddState_cons _ _ _ _ _ _ Hb). eexists. split; [done|].
      split; simpl.
      * by exists [], (state :: block).
      * intros m d Hd. rewrite Get_Set_ne; [by apply Hagree|].
        intros [= _ <-]. lia.
    + rewrite (AddState_cons _ _ _ _ _ _ Hb). eexists. split; [done|].
      split; simpl.
      * by exists ((state :: front) :: above), block.
      * intros m d Hd. rewrite Get_Set_ne; [by apply Hagree|].
        intros [= _ <-]. rewrite length_app in Hd. simpl in Hd. lia.
  - eexists. split; [done|]. split; simpl.
    + exists ([state] :: above), block. by rewrite Hb.
    + intros m d Hd. rewrite Get_Set_ne; [by apply Hagree|].
      intros [= _ <-]. unfold Size in Hd. lia.
Qed.

Lemma above_base_run_ops first ops (this : CPS) :
  forallb is_add ops = true →
  above_base first this →
  ∃ this', run_ops ops this = Ok this' ∧ above_base first this'.
Proof.
  revert this. induction ops as [|op ops IH]; intros this Hadd Habove; simpl.
  - by eexists.
  - simpl in Hadd. apply andb_true_iff in Hadd as [Hadd1 Hadd].
    destruct (above_base_apply_op first op this Hadd1 Habove)
      as (this1 & -> & Habove1).
    simpl. by apply IH.
Qed.

(** Dropping a block above [base] leaves the entries of [base] alone. *)
Lemma drop_front_block_above (this this' : CPS) front rest :
  blocks_ this = front :: rest →
  length (blocks_ base) ≤ length rest →
  agree_up_to (length (blocks_ base)) (states_ this) (states_ base) →
  drop_front_block this = Ok this' →
  blocks_ this' = rest ∧
  agree_up_to (length (blocks_ base)) (states_ this') (states_ base).
Proof.
  intros Hb Hlen Hagree. rewrite (drop_front_block_cons _ _ _ Hb).
  intros [= <-]. split; [done|]. intros m d Hd. simpl.
  rewrite Get_clear_block, decide_False; [by apply Hagree|].
  intros [-> _]. lia.
Qed.

(** Two stacks above [base] whose first blocks on top of [base] were
    started with different states differ as long as they have the same
    size. *)
Lemma extends_with_differ firstA firstB blocksA blocksB :
  firstA ≠ firstB →
  extends_with (blocks_ base) firstA blocksA →
  extends_with (blocks_ base) firstB blocksB →
  blocksA ≠ blocksB.
Proof.
  intros Hne (aboveA & blockA & ->) (aboveB & blockB & ->) Heq.
  assert (length aboveA = length aboveB) as Hlen.
  { apply (f_equal length) in Heq. rewrite !length_app in Heq.
    simpl in Heq. lia. }
  apply app_inj_1 in Heq as [_ Heq]; [|done].
  injection Heq as Heq. apply app_inj_2 in Heq as [_ Heq]; [|done].
  congruence.
Qed.

Lemma extends_with_DropFront first front rest :
  extends_with (blocks_ base) first (front :: rest) →
  length (blocks_ base) < length rest →
  extends_with (blocks_ base) first rest.
Proof.
  intros (above & block & Hb) Hlen. destruct above as [|front' above].
  - simpl in Hb. injection Hb as _ Hrest. rewrite Hrest in Hlen. lia.
  - simpl in Hb. injection Hb as _ ->. by exists above, block.
Qed.

Lemma extends_with_DropFront_base first front rest :
  extends_with (blocks_ base) first (front :: rest) →
  length rest ≤ length (blocks_ base) →
  rest = blocks_ base.
Proof.
  intros (above & block & Hb) Hlen. destruct above as [|front' above].
  - simpl in Hb. by injection Hb as _ Hrest.
  - simpl in Hb. injection Hb as _ ->. rewrite length_app in Hlen.
    simpl in Hlen. lia.
Qed.

(** Narrowing one branch to the other gives [base] back. *)
Lemma ResetToCommonAncestor_above_base firstA firstB (A B : CPS) :
  firstA ≠ firstB →
  above_base firstA A →
  extends_with (blocks_ base) firstB (blocks_ B) →
  ∃ A', ResetToCommonAncestor B A = Ok A' ∧
        blocks_ A' = blocks_ base ∧
        agree_up_to (length (blocks_ base)) (states_ A') (states_ base).
Proof.
  intros Hne [HextA HagreeA] HextB.
  destruct (ResetToCommonAncestor_rule
    (λ p, agree_up_to (length (blocks_ base)) (states_ p.1) (states_ base) ∧
          ((extends_with (blocks_ base) firstA (blocks_ p.1) ∧
            extends_with (blocks_ base) firstB (blocks_ p.2)) ∨
           (blocks_ p.1 = blocks_ base ∧ blocks_ p.2 = blocks_ base)))
    B A) as (p & Hreset & [Hagree Hshape] & Heq).
  - (* the first loop *)
    intros [t o] p' [Hagree Hshape]. simpl in Hagree, Hshape.
    unfold trim_other_cond, trim_other_body.
    rewrite bool_decide_eq_true. simpl. intros Hlt.
    destruct (blocks_ o) as [|front rest] eqn:Ho; simpl; [done|].
    intros [= <-]. simpl. split; [done|].
    destruct Hshape as [[Ht Hext]|[Ht Hbase]].
    + left. split; [done|]. apply (extends_with_DropFront _ front); [done|].
      apply extends_with_length in Ht. unfold Size in Hlt. simpl in Hlt. lia.
    + rewrite Ht, Hbase in Hlt. lia.
  - (* the second loop *)
    intros [t o] p' [Hagree Hshape]. simpl in Hagree, Hshape.
    unfold trim_this_cond, trim_this_body.
    rewrite bool_decide_eq_true. simpl. intros Hlt.
    destruct (drop_front_block t) as [t'| |] eqn:Hdrop; simpl; [|done..].
    intros [= <-]. simpl.
    destruct Hshape as [[Ht Ho]|[Ht Hbase]].
    2: { rewrite Ht, Hbase in Hlt. lia. }
    destruct (blocks_ t) as [|front rest] eqn:Hb; [simpl in Hlt; lia|].
    pose proof (extends_with_length _ _ Ho) as Hlen.
    unfold Size in Hlt. simpl in Hlt.
    destruct (drop_front_block_above t t' front rest) as [Hb' Hagree'];
      [done|lia|done|done|].
    split; [done|]. left. split; [|done]. rewrite Hb'.
    apply (extends_with_DropFront _ front); [done|lia].
  - (* the third loop *)
    intros [t o] p' [Hagree Hshape]. simpl in Hagree, Hshape.
    unfold lockstep_cond, lockstep_body.
    simpl. intros Hsize. rewrite neqb_true. intros Hdiffer.
    destruct Hshape as [[Ht Ho]|[Ht Hbase]]; [|congruence].
    destruct (drop_front_block t) as [t'| |] eqn:Hdrop; simpl; [|done..].
    pose proof (extends_with_length _ _ Ht) as Hlen.
    destruct (blocks_ t) as [|front rest] eqn:Hb; [simpl in Hlen; lia|].
    destruct (blocks_ o) as [|front' rest'] eqn:Hb'; simpl; [done|].
    intros [= <-]. simpl. unfold Size in Hsize. simpl in Hsize, Hlen.
    destruct (drop_front_block_above t t' front rest) as [Hrest Hagree'];
      [done|lia|done|done|].
    split; [done|]. rewrite Hrest.
    destruct (decide (length (blocks_ base) < length rest)) as [Hlt|Hge].
    + left. split.
      * by apply (extends_with_DropFront _ front).
      * apply (extends_with_DropFront _ front'); [done|lia].
    + right. split.
      * apply (extends_with_DropFront_base firstA front); [done|lia].
      * apply (extends_with_DropFront_base firstB front'); [done|lia].
  - by split; [|left].
  - exists p.1. split; [done|]. split; [|done].
    destruct Hshape as [[Ht Ho]|[Ht _]]; [|done].
    by destruct (extends_with_differ firstA firstB _ _ Hne Ht Ho).
Qed.
End Narrowing.

(** * The properties of the specification *)

Section Claims.
Context {Node NodeState : Type} `{Countable Node} `{EqDecision NodeState}.
Context `{!NodeStateContract Node NodeState}.

Local Abbreviation CPS := (ControlPathState Node NodeState).
Local Abbreviation Reducer :=
  (AdvancedReducerWithControlPathState Node NodeState).
Local Abbreviation Get := (PersistentMap.Get NodeState_default).
Local Abbreviation Set_ := PersistentMap.Set_.
Import FunctionalList.

Lemma eqb_true (this other : CPS) :
  eqb this other = true ↔ blocks_ this = blocks_ other.
Proof. unfold eqb. apply equal_true. Qed.

Lemma ResetToCommonAncestor_fuel_mono fuel fuel' (other this this' : CPS) :
  fuel ≤ fuel' →
  ResetToCommonAncestor_fuel fuel other this = Ok this' →
  ResetToCommonAncestor_fuel fuel' other this = Ok this'.
Proof.
  intros Hle. unfold ResetToCommonAncestor_fuel.
  destruct (while_loop fuel trim_other_cond _ _) as [p1| |] eqn:H1;
    simpl; [|done..].
  rewrite (while_loop_fuel_mono _ _ _ _ _ _ Hle H1). simpl.
  destruct (while_loop fuel trim_this_cond _ _) as [p2| |] eqn:H2;
    simpl; [|done..].
  rewrite (while_loop_fuel_mono _ _ _ _ _ _ Hle H2). simpl.
  destruct (while_loop fuel lockstep_cond _ _) as [p3| |] eqn:H3;
    simpl; [|done..].
  by rewrite (while_loop_fuel_mono _ _ _ _ _ _ Hle H3).
Qed.

(** C1, as amended: when two path states [A] and [B] are built from a common
    state [base] by starting a new block each, with different states, and
    then adding further states in any way, [ResetToCommonAncestor] on [A]
    with argument [B] returns and leaves [A] with the blocks of [base], so
    equal to [base] by [operator==]; [LookupState] then gives on [A] what it
    gives on [base] for every node, and the default value for every node
    that has no state in [base], given that the index of [base] corresponds
    to its blocks. *)
Theorem ResetToCommonAncestor_of_branches (base : CPS)
    nA firstA opsA nB firstB opsB :
  firstA ≠ firstB →
  forallb is_add opsA = true →
  forallb is_add opsB = true →
  ∃ A B A',
    run_ops (OpAddStateInNewBlock nA firstA :: opsA) base = Ok A ∧
    run_ops (OpAddStateInNewBlock nB firstB :: opsB) base = Ok B ∧
    ResetToCommonAncestor B A = Ok A' ∧
    blocks_ A' = blocks_ base ∧
    eqb A' base = true ∧
    (∀ n, LookupState n A' = LookupState n base) ∧
    (BlocksAndStatesInvariant base = true →
     ∀ n, newest_in_block n (concat (blocks_ base)) = None →
          LookupState n A' = NodeState_default).
Proof.
  intros Hne HaddA HaddB.
  destruct (above_base_run_ops base firstA opsA
    (AddStateInNewBlock nA firstA base) HaddA
    (above_base_AddStateInNewBlock base nA firstA)) as (A & HA & HaboveA).
  destruct (above_base_run_ops base firstB opsB
    (AddStateInNewBlock nB firstB base) HaddB
    (above_base_AddStateInNewBlock base nB firstB)) as (B & HB & [HextB _]).
  destruct (ResetToCommonAncestor_above_base base firstA firstB A B
    Hne HaboveA HextB) as (A' & Hreset & Hblocks & Hagree).
  exists A, B, A'. split; [done|]. split; [done|]. split; [done|].
  split; [done|]. split; [by apply eqb_true|].
  assert (∀ n, LookupState n A' = LookupState n base) as Hlookup.
  { intros n. unfold LookupState. rewrite Hblocks.
    apply LookupState_from_ext. intros d Hd. apply Hagree.
    unfold Size in Hd. lia. }
  split; [done|]. intros Hinv n Hnone. rewrite Hlookup.
  apply LookupState_absent; [|done]. by apply BlocksAndStatesInvariant_iff.
Qed.


(** C3: after every sequence of calls that starts from the empty path state
    and adds set states for their owning nodes, [LookupState n] returns the
    entry of the index for [n] at the greatest depth of the stack where that
    entry is set, and the default value when there is none.  This is the
    newest state of [n] in the current stack, and the default value when the
    stack holds no state of [n]; when the sequence consists of [AddState]
    and [AddStateInNewBlock] calls only it is the state that the last call
    for [n] added, and the default value when no call was for [n]. *)
Theorem LookupState_most_recent ops (this : CPS) n :
  forallb adds_own_fact ops = true →
  run_ops ops empty_state = Ok this →
  ((∃ d, 1 ≤ d ≤ Size (blocks_ this) ∧
         LookupState n this = Get (n, d) (states_ this) ∧
         IsSet (Get (n, d) (states_ this)) = true ∧
         ∀ d', d < d' ≤ Size (blocks_ this) →
               IsSet (Get (n, d') (states_ this)) = false) ∨
   (LookupState n this = NodeState_default ∧
    ∀ d, 1 ≤ d ≤ Size (blocks_ this) →
         IsSet (Get (n, d) (states_ this)) = false)) ∧
  LookupState n this =
    default NodeState_default (newest_in_block n (concat (blocks_ this))) ∧
  (forallb is_add ops = true →
   LookupState n this = default NodeState_default (last_added n ops)).
Proof.
  intros Hops Hrun.
  destruct (well_formed_run_ops ops empty_state this Hops) as [Hidx Hset];
    [|done|].
  { split; [apply index_corresponds_empty|]. by apply Forall_nil. }
  split; [apply LookupState_from_scan|].
  rewrite (LookupState_newest n this Hidx Hset). split; [done|].
  intros Hadd. rewrite (run_ops_add_newest _ _ _ n Hadd Hops Hrun).
  by destruct (last_added n ops).
Qed.

(** C4: when [AddState] is called on a path state with at least one block
    for a node [n] with state [f1] and then for [n] again with a set state
    [f2], both calls return, [LookupState n] returns [f2], the entry of the
    index for [n] at the front depth is [f2], and the front block holds
    [f2], then [f1], then what it held before. *)
Theorem AddState_shadows (this : CPS) n f1 f2 hint1 hint2 block rest :
  blocks_ this = block :: rest →
  IsSet f2 = true →
  ∃ this1 this2,
    AddState n f1 hint1 this = Ok this1 ∧
    AddState n f2 hint2 this1 = Ok this2 ∧
    LookupState n this2 = f2 ∧
    (f1 ≠ f2 → LookupState n this2 ≠ f1) ∧
    blocks_ this2 = (f2 :: f1 :: block) :: rest ∧
    Get (n, Size (blocks_ this2)) (states_ this2) = f2.
Proof.
  intros Hb Hset.
  set (this1 := {| blocks_ := (f1 :: block) :: rest;
                   states_ := Set_ (n, S (length rest)) f1 (states_ this) |}).
  set (this2 := {| blocks_ := (f2 :: f1 :: block) :: rest;
                   states_ := Set_ (n, S (length rest)) f2 (states_ this1) |}).
  assert (LookupState n this2 = f2) as Hlookup.
  { unfold LookupState. simpl. by rewrite Get_Set_eq, Hset. }
  exists this1, this2.
  split; [by apply AddState_cons|].
  split; [by apply (AddState_cons n f2 hint2 this1 (f1 :: block) rest)|].
  split; [done|]. split; [by rewrite Hlookup|]. split; [done|].
  simpl. apply Get_Set_eq.
Qed.

(** C7, on the code: on the empty path state [AddState] does not return:
    [blocks_.Front()] is called on a list without a front.
    [AddStateInNewBlock] gives the state of depth 1 whose block holds the
    state alone and whose index holds it at depth 1. *)
Theorem AddState_empty_state_aborts n state (hint : CPS) :
  AddState n state hint empty_state = Abort ∧
  blocks_ (AddStateInNewBlock n state empty_state) = [[state]] ∧
  Get (n, 1) (states_ (AddStateInNewBlock n state empty_state)) = state.
Proof.
  split; [done|]. split; [done|]. simpl. apply Get_Set_eq.
Qed.

(** C8: [ResetToCommonAncestor] returns for every pair of path states, and
    with any fuel of at least the number of blocks of the two stacks it
    returns the same.  Every iteration of the first loop makes the stack of
    [other] shorter by one block, every iteration of the second loop the
    stack of the receiver, and every iteration of the third loop, which is
    entered with stacks of the same size, both of them.  Two stacks of
    depth 0 are equal, so the third loop is left there at the latest. *)
Theorem ResetToCommonAncestor_terminates (other this : CPS) :
  (∃ this', ResetToCommonAncestor other this = Ok this' ∧
            ∀ fuel, Size (blocks_ this) + Size (blocks_ other) ≤ fuel →
                    ResetToCommonAncestor_fuel fuel other this = Ok this') ∧
  (∀ p : CPS * CPS, trim_other_cond p = true →
        ∃ p', trim_other_body p = Ok p' ∧ p'.1 = p.1 ∧
              Size (blocks_ p.2) = S (Size (blocks_ p'.2))) ∧
  (∀ p : CPS * CPS, trim_this_cond p = true →
        ∃ p', trim_this_body p = Ok p' ∧ p'.2 = p.2 ∧
              Size (blocks_ p.1) = S (Size (blocks_ p'.1))) ∧
  (∀ p : CPS * CPS,
     Size (blocks_ p.1) = Size (blocks_ p.2) → lockstep_cond p = true →
     ∃ p', lockstep_body p = Ok p' ∧
           Size (blocks_ p.1) = S (Size (blocks_ p'.1)) ∧
           Size (blocks_ p.2) = S (Size (blocks_ p'.2))) ∧
  (Size (blocks_ this) = 0 → Size (blocks_ other) = 0 →
   lockstep_cond (this, other) = false).
Proof.
  split; [|split; [|split; [|split]]].
  - destruct (ResetToCommonAncestor_returns other this) as [this' Hreset].
    exists this'. split; [done|]. intros fuel Hfuel.
    by apply (ResetToCommonAncestor_fuel_mono _ _ _ _ _ Hfuel).
  - apply trim_other_body_decreases.
  - apply trim_this_body_decreases.
  - apply lockstep_body_decreases.
  - intros Hthis Hother. apply neqb_false. simpl.
    destruct (blocks_ this); [|done]. by destruct (blocks_ other).
Qed.

(** C9: [ResetToCommonAncestor] on a path state with itself as argument
    returns and leaves it as it is; with an argument that is equal to it by
    [operator==] it returns and leaves it as it is too, so equal to its
    original value, and with the same [LookupState] for every node. *)
Theorem ResetToCommonAncestor_idempotent (this : CPS) :
  ResetToCommonAncestor this this = Ok this ∧
  (∀ other, eqb this other = true →
     ∃ this', ResetToCommonAncestor other this = Ok this' ∧
              this' = this ∧
              eqb this' this = true ∧
              ∀ n, LookupState n this' = LookupState n this).
Proof.
  split; [by apply ResetToCommonAncestor_equal|].
  intros other Heq. apply eqb_true in Heq. exists this.
  split; [by apply ResetToCommonAncestor_equal|].
  split; [done|]. split; [by apply eqb_true|done].
Qed.

(** C10: adding a state for a node [n] leaves [LookupState m] as it was for
    every node [m] other than [n], and changes no entry of the index but
    the one of [n] at the depth of the front block after the call.  For
    [AddState] this holds on every path state with at least one block, where
    the call returns; for [AddStateInNewBlock] on every path state whose
    index corresponds to its blocks. *)
Theorem add_leaves_other_nodes (this : CPS) n state m :
  m ≠ n →
  (∀ hint, blocks_ this ≠ [] →
     ∃ this', AddState n state hint this = Ok this' ∧
              LookupState m this' = LookupState m this ∧
              ∀ k, k ≠ (n, Size (blocks_ this')) →
                   Get k (states_ this') = Get k (states_ this)) ∧
  (BlocksAndStatesInvariant this = true →
   LookupState m (AddStateInNewBlock n state this) = LookupState m this) ∧
  (∀ k, k ≠ (n, Size (blocks_ (AddStateInNewBlock n state this))) →
        Get k (states_ (AddStateInNewBlock n state this)) =
        Get k (states_ this)).
Proof.
  intros Hne. split; [|split].
  - intros hint Hnonempty.
    destruct (blocks_ this) as [|block rest] eqn:Hb; [done|].
    eexists. split; [by apply AddState_cons|]. split.
    + unfold LookupState. cbn [blocks_ states_]. rewrite Hb.
      apply (LookupState_from_ext m _ _ (S (length rest))). intros d Hd.
      rewrite Get_Set_ne; [done|]. by intros [= ? ?].
    + intros k Hk. simpl. rewrite Get_Set_ne; [done|]. simpl in Hk. done.
  - intros Hinv. apply BlocksAndStatesInvariant_iff in Hinv.
    unfold LookupState, AddStateInNewBlock, PushFront, Size. simpl.
    rewrite Get_Set_ne; [|by intros [= ? ?]].
    rewrite Hinv, index_of_blocks_out_of_range by lia.
    rewrite IsSet_default. apply LookupState_from_ext. intros d Hd.
    rewrite Get_Set_ne; [done|]. by intros [= ? ?].
  - intros k Hk. simpl. rewrite Get_Set_ne; [done|].
    intros <-. apply Hk. unfold PushFront, Size. simpl. f_equal. lia.
Qed.
End Claims.

Section ReducerClaims.
Context {Node NodeState : Type} `{Countable Node} `{EqDecision NodeState}.
Context `{!NodeStateContract Node NodeState}.

Local Abbreviation CPS := (ControlPathState Node NodeState).
Local Abbreviation Reducer :=
  (AdvancedReducerWithControlPathState Node NodeState).

Lemma UpdateStates_outcome_eq state_owner (new_state : CPS) (r : Reducer) :
  (UpdateStates state_owner new_state r).1 =
    if negb (IsReduced state_owner r) ||
       neqb (GetState state_owner r) new_state
    then Changed state_owner else NoChange.
Proof.
  unfold UpdateStates, IsReduced, GetState, NodeAuxData.Set_.
  destruct (NodeAuxData.Get false state_owner (reduced_ r));
    destruct (neqb _ new_state); done.
Qed.

Lemma UpdateStates_IsReduced state_owner (new_state : CPS) (r : Reducer) n :
  IsReduced n (UpdateStates state_owner new_state r).2 =
    if decide (n = state_owner) then true else IsReduced n r.
Proof.
  unfold UpdateStates, IsReduced, NodeAuxData.Set_.
  destruct (NodeAuxData.Get false state_owner (reduced_ r)) eqn:Hred;
    destruct (neqb _ new_state); simpl; case_decide as Hn; subst;
    unfold NodeAuxData.Get;
    rewrite ?lookup_insert_eq, ?lookup_insert_ne by done; done.
Qed.

Lemma UpdateStates_GetState state_owner (new_state : CPS) (r : Reducer) n :
  GetState n (UpdateStates state_owner new_state r).2 =
    if decide (n = state_owner)
    then if neqb (GetState state_owner r) new_state
         then new_state else GetState state_owner r
    else GetState n r.
Proof.
  unfold UpdateStates, GetState, NodeAuxData.Set_.
  destruct (xorb _ true);
    destruct (neqb (NodeAuxData.Get empty_state state_owner _) new_state)
      eqn:Hneq; simpl; case_decide as Hn; subst;
    unfold NodeAuxData.Get;
    rewrite ?lookup_insert_eq, ?lookup_insert_ne by done; done.
Qed.

(** Two path states that are equal by [operator==] and whose indices
    correspond to their blocks give the same [LookupState]. *)
Lemma LookupState_eqb (this other : CPS) n :
  eqb this other = true →
  index_corresponds this →
  index_corresponds other →
  LookupState n this = LookupState n other.
Proof.
  intros Heq Hthis Hother. apply eqb_true in Heq. unfold LookupState.
  rewrite Heq. apply LookupState_from_ext. intros d _.
  by rewrite Hthis, Hother, Heq.
Qed.

(** C5: the two-argument [UpdateStates] leaves the node marked as reduced
    and with a stored state that is equal to the new state by [operator==],
    and that is the new state itself when the state stored before differed
    from it; when the state stored before did not differ and it passes the
    debug check, as the new state does, it gives the same [LookupState] as
    the new state.  It returns [Changed] of the node exactly when the node was not
    marked as reduced before or the state stored before differed from the
    new state by [operator!=], and [NoChange] exactly otherwise.  A second
    call with a state equal to the new one returns [NoChange].  The entries
    of all other nodes stay as they are. *)
Theorem UpdateStates_outcome state_owner (new_state : CPS) (r : Reducer) :
  let outcome := (UpdateStates state_owner new_state r).1 in
  let r' := (UpdateStates state_owner new_state r).2 in
  IsReduced state_owner r' = true ∧
  eqb (GetState state_owner r') new_state = true ∧
  (neqb (GetState state_owner r) new_state = true →
   GetState state_owner r' = new_state) ∧
  (BlocksAndStatesInvariant (GetState state_owner r) = true →
   BlocksAndStatesInvariant new_state = true →
   ∀ n, LookupState n (GetState state_owner r') = LookupState n new_state) ∧
  (outcome = Changed state_owner ↔
   IsReduced state_owner r = false ∨
   neqb (GetState state_owner r) new_state = true) ∧
  (outcome = NoChange ↔
   IsReduced state_owner r = true ∧
   eqb (GetState state_owner r) new_state = true) ∧
  (∀ new_state', eqb new_state new_state' = true →
     (UpdateStates state_owner new_state' r').1 = NoChange) ∧
  (∀ n, n ≠ state_owner →
     IsReduced n r' = IsReduced n r ∧ GetState n r' = GetState n r).
Proof.
  intros outcome r'. subst outcome r'.
  assert (eqb (GetState state_owner
                 (UpdateStates state_owner new_state r).2) new_state = true)
    as Heq.
  { rewrite UpdateStates_GetState, decide_True by done.
    destruct (neqb _ new_state) eqn:Hneq.
    - by apply eqb_true.
    - by apply negb_false_iff in Hneq. }
  split; [by rewrite UpdateStates_IsReduced, decide_True|].
  split; [done|]. split.
  { intros Hneq. by rewrite UpdateStates_GetState, decide_True, Hneq. }
  split.
  { intros Hold Hnew n. apply LookupState_eqb; [done| |].
    - apply BlocksAndStatesInvariant_iff.
      rewrite UpdateStates_GetState, decide_True by done.
      by destruct (neqb _ new_state).
    - by apply BlocksAndStatesInvariant_iff. }
  rewrite UpdateStates_outcome_eq. unfold neqb.
  split; [|split; [|split]].
  - destruct (IsReduced state_owner r),
      (eqb (GetState state_owner r) new_state); simpl;
      split; try done; try (by intros [|]); by eauto.
  - destruct (IsReduced state_owner r),
      (eqb (GetState state_owner r) new_state); simpl;
      split; try done; by intros [].
  - intros new_state' Heq'. rewrite UpdateStates_outcome_eq.
    rewrite UpdateStates_IsReduced, decide_True by done. simpl.
    apply eqb_true in Heq, Heq'.
    assert (neqb (GetState state_owner
                    (UpdateStates state_owner new_state r).2) new_state'
            = false) as ->; [|done].
    apply negb_false_iff, eqb_true. congruence.
  - intros n Hn.
    by rewrite UpdateStates_IsReduced, UpdateStates_GetState,
      !decide_False.
Qed.

(** C6: for a node with a first control input, [TakeStatesFromFirstControl]
    returns [NoChange] and leaves both tables as they are when that input
    is not marked as reduced.  Otherwise it returns what the two-argument
    [UpdateStates] gives for the node and the stored state of the input:
    the node is marked as reduced; its stored state is equal by
    [operator==] to the stored state of the input, and is that state itself
    when the state stored for the node before differed from it; the outcome
    is [Changed] of the node exactly when the node was not marked as reduced
    or its stored state differed from the one of the input, and [NoChange]
    exactly otherwise; the entries of all other nodes stay as they are. *)
Theorem TakeStatesFromFirstControl_outcome (control_inputs : Node → list Node)
    n input (r : Reducer) :
  control_inputs n !! 0 = Some input →
  (IsReduced input r = false →
   TakeStatesFromFirstControl control_inputs n r = Ok (NoChange, r)) ∧
  (IsReduced input r = true →
   ∃ outcome r',
     TakeStatesFromFirstControl control_inputs n r = Ok (outcome, r') ∧
     (outcome, r') = UpdateStates n (GetState input r) r ∧
     IsReduced n r' = true ∧
     eqb (GetState n r') (GetState input r) = true ∧
     (neqb (GetState n r) (GetState input r) = true →
      GetState n r' = GetState input r) ∧
     (outcome = Changed n ↔
      IsReduced n r = false ∨
      neqb (GetState n r) (GetState input r) = true) ∧
     (outcome = NoChange ↔
      IsReduced n r = true ∧
      eqb (GetState n r) (GetState input r) = true) ∧
     (∀ m, m ≠ n →
        IsReduced m r' = IsReduced m r ∧ GetState m r' = GetState m r)).
Proof.
  intros Hinput. unfold TakeStatesFromFirstControl, GetControlInput.
  rewrite Hinput. simpl. split; intros Hred; rewrite Hred; simpl; [done|].
  destruct (UpdateStates n (GetState input r) r) as [outcome r'] eqn:Hupdate.
  assert (outcome = (UpdateStates n (GetState input r) r).1) as Houtcome
    by (by rewrite Hupdate).
  assert (r' = (UpdateStates n (GetState input r) r).2) as Hr'
    by (by rewrite Hupdate).
  exists outcome, r'. split; [done|]. split; [done|].
  split; [by rewrite Hr', UpdateStates_IsReduced, decide_True|].
  split.
  { rewrite Hr', UpdateStates_GetState, decide_True by done.
    destruct (neqb _ (GetState input r)) eqn:Hneq.
    - by apply eqb_true.
    - by apply negb_false_iff in Hneq. }
  split.
  { intros Hneq. by rewrite Hr', UpdateStates_GetState, decide_True, Hneq. }
  rewrite Houtcome, UpdateStates_outcome_eq. unfold neqb.
  split; [|split].
  - destruct (IsReduced n r), (eqb (GetState n r) (GetState input r)); simpl;
      split; try done; try (by intros [|]); by eauto.
  - destruct (IsReduced n r), (eqb (GetState n r) (GetState input r)); simpl;
      split; try done; by intros [].
  - intros m Hm.
    by rewrite Hr', UpdateStates_IsReduced, UpdateStates_GetState,
      !decide_False.
Qed.
End ReducerClaims.

(** * The properties on the sample instance *)

Section Witnesses.
Import Sample.
Import FunctionalList.

Lemma ResetToCommonAncestor_of_branches_witness :
  ∃ A B A',
    run_ops [OpAddStateInNewBlock 3 f3] base = Ok A ∧
    run_ops [OpAddStateInNewBlock 4 f4; OpAddState 1 f1' empty] base = Ok B ∧
    ResetToCommonAncestor B A = Ok A' ∧
    blocks_ A' = blocks_ base ∧
    eqb A' base = true ∧
    (∀ n, LookupState n A' = LookupState n base) ∧
    (BlocksAndStatesInvariant base = true →
     ∀ n, newest_in_block n (concat (blocks_ base)) = None →
          LookupState n A' = NodeState_default).
Proof.
  apply (ResetToCommonAncestor_of_branches base 3 f3 [] 4 f4
           [OpAddState 1 f1' empty]).
  - discriminate.
  - reflexivity.
  - reflexivity.
Defined.

(** C1 as stated fails when the two path states extend the common state
    within its front block: narrowing drops the whole front block of the
    common state, and the state of node 1 with it. *)
Lemma ResetToCommonAncestor_of_extensions_counterexample :
  ∃ A B A',
    AddState 2 f2 empty region1 = Ok A ∧
    AddState 3 f3 empty region1 = Ok B ∧
    f2 ≠ f3 ∧
    ResetToCommonAncestor B A = Ok A' ∧
    eqb A' region1 = false ∧
    blocks_ A' = [] ∧
    LookupState 1 region1 = f1 ∧
    LookupState 1 A' = NodeState_default.
Proof.
  eexists. eexists. eexists.
  split; [vm_compute; reflexivity|].
  split; [vm_compute; reflexivity|].
  split; [discriminate|].
  split; [vm_compute; reflexivity|].
  repeat split; vm_compute; reflexivity.
Defined.



Lemma LookupState_most_recent_witness :
  LookupState 1 after_history =
    default NodeState_default
      (newest_in_block 1 (concat (blocks_ after_history))) ∧
  LookupState 1 after_history =
    default NodeState_default (last_added 1 history).
Proof.
  assert (forallb adds_own_fact history = true) as Hops
    by (vm_compute; reflexivity).
  assert (run_ops history empty_state = Ok after_history) as Hrun
    by (vm_compute; reflexivity).
  destruct (LookupState_most_recent history after_history 1 Hops Hrun)
    as (_ & Hnewest & Hlast).
  split; [exact Hnewest|]. apply Hlast. reflexivity.
Defined.

Lemma AddState_shadows_witness :
  ∃ this1 this2,
    AddState 2 f2 empty region1 = Ok this1 ∧
    AddState 2 f2' empty this1 = Ok this2 ∧
    LookupState 2 this2 = f2' ∧
    (f2 ≠ f2' → LookupState 2 this2 ≠ f2) ∧
    blocks_ this2 = [[f2'; f2; f1]] ∧
    PersistentMap.Get NodeState_default (2, Size (blocks_ this2))
      (states_ this2) = f2'.
Proof.
  apply (AddState_shadows region1 2 f2 f2' empty empty [f1] []).
  - reflexivity.
  - reflexivity.
Defined.

Lemma UpdateStates_outcome_witness :
  (UpdateStates 1 region1 reducer0).1 = Changed 1 ∧
  (UpdateStates 1 region1 reducer1).1 = NoChange.
Proof.
  destruct (UpdateStates_outcome 1 region1 reducer0)
    as (_ & _ & _ & _ & [_ Hchanged] & _ & Hagain & _).
  split.
  - apply Hchanged. left. reflexivity.
  - apply (Hagain region1). reflexivity.
Defined.

Lemma TakeStatesFromFirstControl_outcome_witness :
  TakeStatesFromFirstControl graph 2 reducer0 = Ok (NoChange, reducer0) ∧
  ∃ outcome r',
    TakeStatesFromFirstControl graph 2 reducer1 = Ok (outcome, r') ∧
    IsReduced 2 r' = true ∧
    eqb (GetState 2 r') (GetState 1 reducer1) = true ∧
    outcome = Changed 2.
Proof.
  split.
  - apply (TakeStatesFromFirstControl_outcome graph 2 1 reducer0);
      reflexivity.
  - destruct (TakeStatesFromFirstControl_outcome graph 2 1 reducer1)
      as [_ Hreduced]; [reflexivity|].
    destruct Hreduced
      as (outcome & r' & Hcall & _ & Hflag & Hstate & _ & Hchanged & _);
      [reflexivity|].
    exists outcome, r'. split; [exact Hcall|]. split; [exact Hflag|].
    split; [exact Hstate|]. apply Hchanged. left. reflexivity.
Defined.

Lemma ResetToCommonAncestor_terminates_witness :
  ∃ this', ResetToCommonAncestor branchB branchA = Ok this' ∧
           ResetToCommonAncestor_fuel 10 branchB branchA = Ok this'.
Proof.
  destruct (ResetToCommonAncestor_terminates branchB branchA)
    as ((this' & Hreset & Hfuel) & _).
  exists this'. split; [exact Hreset|]. apply Hfuel. simpl. lia.
Defined.

Lemma ResetToCommonAncestor_idempotent_witness :
  ResetToCommonAncestor base base = Ok base ∧
  ∃ this', ResetToCommonAncestor equal_to_after_history after_history
             = Ok this' ∧
           this' = after_history ∧
           eqb this' after_history = true ∧
           ∀ n, LookupState n this' = LookupState n after_history.
Proof.
  split.
  - apply (ResetToCommonAncestor_idempotent base).
  - apply (ResetToCommonAncestor_idempotent after_history). reflexivity.
Defined.

Lemma add_leaves_other_nodes_witness :
  LookupState 1 (AddStateInNewBlock 3 f3 base) = LookupState 1 base ∧
  ∃ this', AddState 3 f3 empty base = Ok this' ∧
           LookupState 1 this' = LookupState 1 base.
Proof.
  destruct (add_leaves_other_nodes base 3 f3 1) as (Hadd & Hnew & _).
  { discriminate. }
  split.
  - apply Hnew. vm_compute. reflexivity.
  - destruct (Hadd empty) as (this' & Hthis' & Hlookup & _).
    { discriminate. }
    exists this'. split; [exact Hthis'|exact Hlookup].
Defined.
End Witnesses.


(** * Further properties of the path state *)

Section PathStateFacts.
Context {Node NodeState : Type} `{Countable Node} `{EqDecision NodeState}.
Context `{!NodeStateContract Node NodeState}.

Local Abbreviation CPS := (ControlPathState Node NodeState).
Local Abbreviation Get := (PersistentMap.Get NodeState_default).
Local Abbreviation Set_ := PersistentMap.Set_.
Import FunctionalList.

Lemma suffix_of_cons_shorter {A : Type} (s l : list A) x :
  s `suffix_of` x :: l → length s ≤ length l → s `suffix_of` l.
Proof.
  intros [k Hk] Hlen. destruct k as [|y k]; simpl in Hk.
  - subst s. simpl in Hlen. lia.
  - injection Hk as _ ->. by exists k.
Qed.

Lemma drop_front_block_blocks (this this' : CPS) :
  drop_front_block this = Ok this' →
  ∃ front, blocks_ this = front :: blocks_ this'.
Proof.
  destruct (blocks_ this) as [|front rest] eqn:Hb.
  { unfold drop_front_block. by rewrite Hb. }
  rewrite (drop_front_block_cons _ _ _ Hb). intros [= <-]. by exists front.
Qed.

(** The call leaves the longest common suffix of the two stacks. *)
Lemma ResetToCommonAncestor_suffix (other this : CPS) :
  ∃ this', ResetToCommonAncestor other this = Ok this' ∧
    blocks_ this' `suffix_of` blocks_ this ∧
    blocks_ this' `suffix_of` blocks_ other ∧
    ∀ s, s `suffix_of` blocks_ this → s `suffix_of` blocks_ other →
         s `suffix_of` blocks_ this'.
Proof.
  destruct (ResetToCommonAncestor_rule
    (λ p, blocks_ p.1 `suffix_of` blocks_ this ∧
          blocks_ p.2 `suffix_of` blocks_ other ∧
          ∀ s, s `suffix_of` blocks_ this → s `suffix_of` blocks_ other →
               s `suffix_of` blocks_ p.1 ∧ s `suffix_of` blocks_ p.2)
    other this) as (p & Hreset & (Hthis & Hother & Hmax) & Heq).
  - intros [t o] p' (Ht & Ho & Hmax). simpl in Ht, Ho, Hmax.
    unfold trim_other_cond, trim_other_body.
    rewrite bool_decide_eq_true. simpl. intros Hlt.
    destruct (blocks_ o) as [|front rest] eqn:Hb; simpl; [done|].
    intros [= <-]. simpl. split; [done|]. split; [by eapply suffix_cons_l|].
    intros s Hs1 Hs2. destruct (Hmax s Hs1 Hs2) as [Hst Hso].
    split; [done|]. apply (suffix_of_cons_shorter _ _ front); [done|].
    apply suffix_length in Hst. unfold Size in Hlt. simpl in Hlt. lia.
  - intros [t o] p' (Ht & Ho & Hmax). simpl in Ht, Ho, Hmax.
    unfold trim_this_cond, trim_this_body.
    rewrite bool_decide_eq_true. simpl. intros Hlt.
    destruct (drop_front_block t) as [t'| |] eqn:Hdrop; simpl; [|done..].
    intros [= <-]. simpl.
    destruct (drop_front_block_blocks _ _ Hdrop) as [front Hb].
    rewrite Hb in Ht, Hlt. split; [by eapply suffix_cons_l|]. split; [done|].
    intros s Hs1 Hs2. destruct (Hmax s Hs1 Hs2) as [Hst Hso].
    split; [|done]. rewrite Hb in Hst.
    apply (suffix_of_cons_shorter _ _ front); [done|].
    apply suffix_length in Hso. unfold Size in Hlt. simpl in Hlt. lia.
  - intros [t o] p' (Ht & Ho & Hmax). simpl in Ht, Ho, Hmax.
    unfold lockstep_cond, lockstep_body. simpl. intros Hsize.
    rewrite neqb_true. intros Hdiffer.
    destruct (drop_front_block t) as [t'| |] eqn:Hdrop; simpl; [|done..].
    destruct (drop_front_block_blocks _ _ Hdrop) as [front Hb].
    destruct (blocks_ o) as [|front' rest'] eqn:Hb'; simpl; [done|].
    intros [= <-]. simpl. rewrite Hb in Ht, Hsize, Hdiffer.
    unfold Size in Hsize. simpl in Hsize.
    split; [by eapply suffix_cons_l|]. split; [by eapply suffix_cons_l|].
    intros s Hs1 Hs2. destruct (Hmax s Hs1 Hs2) as [Hst Hso].
    rewrite Hb in Hst.
    assert (length s ≤ length (blocks_ t')) as Hlen.
    { destruct (decide (length s ≤ length (blocks_ t'))) as [|Hlong]; [done|].
      destruct Hdiffer.
      rewrite <- (suffix_length_eq _ _ Hst) by (simpl; lia).
      apply suffix_length_eq; [done|]. simpl. lia. }
    split; [by apply (suffix_of_cons_shorter _ _ front)|].
    apply (suffix_of_cons_shorter _ _ front'); [done|lia].
  - simpl. split; [done|]. split; [done|]. by intros s ? ?.
  - exists p.1. split; [done|]. split; [done|]. split; [by rewrite Heq|].
    intros s Hs1 Hs2. by apply Hmax.
Qed.

Lemma LookupState_default_or_set n (this : CPS) :
  LookupState n this = NodeState_default ∨ IsSet (LookupState n this) = true.
Proof.
  destruct (LookupState_from_scan n (states_ this) (Size (blocks_ this)))
    as [(d & _ & Heq & Hset & _)|[Heq _]].
  - right. unfold LookupState. by rewrite Heq.
  - by left.
Qed.

(** With the index in correspondence, a set result is a state of the stack
    that the node owns. *)
Lemma LookupState_set_in_stack n (this : CPS) :
  index_corresponds this →
  IsSet (LookupState n this) = true →
  node (LookupState n this) = n ∧ LookupState n this ∈ concat (blocks_ this).
Proof.
  intros Hidx Hset.
  destruct (LookupState_from_scan n (states_ this) (Size (blocks_ this)))
    as [(d & _ & Heq & _ & _)|[Heq _]].
  - unfold LookupState in *. rewrite Heq in *. rewrite Hidx in *.
    unfold index_of_blocks in *.
    destruct (newest_in_block n (block_at (blocks_ this) d))
      as [state|] eqn:Hnew; simpl in *.
    + apply newest_in_block_node in Hnew as [Hnode Hin].
      split; [done|]. by eapply block_at_subseteq.
    + by rewrite IsSet_default in Hset.
  - unfold LookupState in Hset. rewrite Heq in Hset.
    by rewrite IsSet_default in Hset.
Qed.

Lemma concat_suffix_subseteq (l1 l2 : list (list NodeState)) state :
  l1 `suffix_of` l2 → state ∈ concat l1 → state ∈ concat l2.
Proof.
  intros [k ->] Hin. rewrite concat_app. apply elem_of_app. by right.
Qed.
End PathStateFacts.

Section PathStateProperties.
Context {Node NodeState : Type} `{Countable Node} `{EqDecision NodeState}.
Context `{!NodeStateContract Node NodeState}.

Local Abbreviation CPS := (ControlPathState Node NodeState).
Local Abbreviation Get := (PersistentMap.Get NodeState_default).
Local Abbreviation Set_ := PersistentMap.Set_.
Import FunctionalList.

(** X1: the hint of [AddState] has no influence on what the call gives: with
    any two hints the outcome is the same.  When the call returns, the state
    was put in front of the front block, all other blocks are as they were,
    and the depth is as it was. *)
Theorem AddState_ignores_hint n state (hint1 hint2 this : CPS) :
  AddState n state hint1 this = AddState n state hint2 this ∧
  ∀ this', AddState n state hint1 this = Ok this' →
    Size (blocks_ this') = Size (blocks_ this) ∧
    ∃ block rest, blocks_ this = block :: rest ∧
                  blocks_ this' = (state :: block) :: rest.
Proof.
  destruct (blocks_ this) as [|block rest] eqn:Hb.
  - rewrite !AddState_nil by done. by split.
  - rewrite !(AddState_cons _ _ _ _ _ _ Hb). split; [done|].
    intros this' [= <-]. split; [done|]. by exists block, rest.
Qed.

(** X2: [AddStateInNewBlock] makes the stack one block deeper.  Afterwards
    [LookupState] of the node gives the added state when that state is set,
    and what it gave before when the added state is not set. *)
Theorem AddStateInNewBlock_LookupState n state (this : CPS) :
  Size (blocks_ (AddStateInNewBlock n state this)) = S (Size (blocks_ this)) ∧
  (IsSet state = true →
   LookupState n (AddStateInNewBlock n state this) = state) ∧
  (IsSet state = false →
   LookupState n (AddStateInNewBlock n state this) = LookupState n this).
Proof.
  split; [done|].
  assert (Get (n, S (length (blocks_ this)))
            (Set_ (n, Size (blocks_ this) + 1) state (states_ this)) = state)
    as Hget.
  { rewrite Get_Set, decide_True; [done|]. unfold Size. f_equal. lia. }
  unfold LookupState, AddStateInNewBlock, PushFront.
  cbn [blocks_ states_ Size length LookupState_from]. rewrite Hget.
  split; intros ->; [done|].
  apply LookupState_from_ext. intros d Hd. rewrite Get_Set_ne; [done|].
  intros [= ?]. unfold Size in *. lia.
Qed.

(** X3: on a path state with a front block [AddState] returns.  Afterwards
    [LookupState] of the node gives the added state when that state is set.
    When it is not set, the entry of the node at the front depth is hidden:
    [LookupState] gives what the index holds for the node below the front
    block. *)
Theorem AddState_LookupState n state (hint this : CPS) block rest :
  blocks_ this = block :: rest →
  ∃ this', AddState n state hint this = Ok this' ∧
    (IsSet state = true → LookupState n this' = state) ∧
    (IsSet state = false →
     LookupState n this' =
       LookupState n {| blocks_ := rest; states_ := states_ this |}).
Proof.
  intros Hb. eexists. split; [by apply AddState_cons|].
  unfold LookupState. cbn [blocks_ states_ Size length LookupState_from].
  rewrite Get_Set_eq. split; intros ->; [done|].
  apply LookupState_from_ext. intros d Hd. rewrite Get_Set_ne; [done|].
  intros [= ?]. lia.
Qed.

(** X4: [LookupState] gives the default value or a set state.  On a path
    state that passes [BlocksAndStatesInvariant] a set result is owned by the
    node that was looked up and is one of the states of the block stack. *)
Theorem LookupState_sound n (this : CPS) :
  (LookupState n this = NodeState_default ∨
   IsSet (LookupState n this) = true) ∧
  (BlocksAndStatesInvariant this = true →
   IsSet (LookupState n this) = true →
   node (LookupState n this) = n ∧
   LookupState n this ∈ concat (blocks_ this)).
Proof.
  split; [apply LookupState_default_or_set|].
  intros Hinv. apply LookupState_set_in_stack.
  by apply BlocksAndStatesInvariant_iff.
Qed.

(** X5: [BlocksAndStatesInvariant] returns true exactly when, for every node
    and every depth, the entry of the index is the newest state of that node
    in the block at that depth, and the default value when that block has no
    state of the node or no block has that depth. *)
Theorem BlocksAndStatesInvariant_decides_correspondence (this : CPS) :
  BlocksAndStatesInvariant this = true ↔
  ∀ n d, Get (n, d) (states_ this) =
         default NodeState_default
           (newest_in_block n (block_at (blocks_ this) d)).
Proof. apply BlocksAndStatesInvariant_iff. Qed.

(** X6: every path state that is reached from the constructed one by calls
    of [AddState], [AddStateInNewBlock] and [ResetToCommonAncestor], where
    the added states are set and added for their owning nodes, passes
    [BlocksAndStatesInvariant], and all the states in its blocks are set. *)
Theorem reachable_states_pass_check ops (this : CPS) :
  forallb adds_own_fact ops = true →
  run_ops ops empty_state = Ok this →
  BlocksAndStatesInvariant this = true ∧ all_set (blocks_ this).
Proof.
  intros Hops Hrun.
  destruct (well_formed_run_ops ops empty_state this Hops) as [Hidx Hset];
    [|done|].
  { split; [apply index_corresponds_empty|]. by apply Forall_nil. }
  split; [by apply BlocksAndStatesInvariant_iff|done].
Qed.

(** X7: the owner of an added state has to be the node it is added for.  On
    a path state that passes [BlocksAndStatesInvariant], after
    [AddStateInNewBlock] of a state other than the default one for a node
    that does not own it the check fails; so it does after [AddState] of a
    state for a node that does not own it, unless the state is the entry
    that the node had at the front depth already. *)
Theorem BlocksAndStatesInvariant_rejects_foreign_node n state (this : CPS) :
  BlocksAndStatesInvariant this = true →
  node state ≠ n →
  (state ≠ NodeState_default →
   BlocksAndStatesInvariant (AddStateInNewBlock n state this) = false) ∧
  (∀ hint this', AddState n state hint this = Ok this' →
     state ≠ Get (n, Size (blocks_ this)) (states_ this) →
     BlocksAndStatesInvariant this' = false).
Proof.
  intros Hinv Hnode. apply BlocksAndStatesInvariant_iff in Hinv. split.
  - intros Hstate. apply not_true_iff_false. intros Hcheck.
    apply BlocksAndStatesInvariant_iff in Hcheck.
    specialize (Hcheck n (S (length (blocks_ this)))).
    unfold AddStateInNewBlock, PushFront, Size in Hcheck. simpl in Hcheck.
    rewrite index_of_blocks_cons, decide_True in Hcheck by done.
    rewrite Get_Set, decide_True in Hcheck by (f_equal; lia).
    simpl in Hcheck. by rewrite decide_False in Hcheck.
  - intros hint this' Hadd Hstate. apply not_true_iff_false. intros Hcheck.
    apply BlocksAndStatesInvariant_iff in Hcheck.
    destruct (blocks_ this) as [|block rest] eqn:Hb.
    { by rewrite AddState_nil in Hadd. }
    rewrite (AddState_cons _ _ _ _ _ _ Hb) in Hadd. injection Hadd as <-.
    specialize (Hcheck n (S (length rest))). simpl in Hcheck.
    rewrite index_of_blocks_cons, decide_True in Hcheck by done.
    rewrite Get_Set_eq in Hcheck. simpl in Hcheck.
    rewrite decide_False in Hcheck by done.
    specialize (Hinv n (S (length rest))).
    rewrite Hb, index_of_blocks_cons, decide_True in Hinv by done.
    apply Hstate. unfold Size. simpl. congruence.
Qed.

(** X8: [ResetToCommonAncestor] returns and only drops blocks from the
    front of the receiver: the block stack it leaves is a suffix of the
    block stack of the receiver before the call and a suffix of the block
    stack of the argument, so the receiver is no deeper afterwards than
    either stack was, and every state it holds afterwards is a state of
    both stacks. *)
Theorem ResetToCommonAncestor_common_suffix (other this : CPS) :
  ∃ this', ResetToCommonAncestor other this = Ok this' ∧
    blocks_ this' `suffix_of` blocks_ this ∧
    blocks_ this' `suffix_of` blocks_ other ∧
    Size (blocks_ this') ≤ Size (blocks_ this) ∧
    Size (blocks_ this') ≤ Size (blocks_ other) ∧
    ∀ state, state ∈ concat (blocks_ this') →
             state ∈ concat (blocks_ this) ∧ state ∈ concat (blocks_ other).
Proof.
  destruct (ResetToCommonAncestor_suffix other this)
    as (this' & Hreset & Hthis & Hother & _).
  exists this'. split; [done|]. split; [done|]. split; [done|].
  split; [by apply suffix_length|]. split; [by apply suffix_length|].
  intros state Hin. split; by eapply concat_suffix_subseteq.
Qed.

(** X9: narrowing is symmetric in the blocks: [ResetToCommonAncestor] on
    [A] with argument [B] and on [B] with argument [A] leave equal block
    stacks; when [A] and [B] pass [BlocksAndStatesInvariant], the two results
    give the same [LookupState] for every node. *)
Theorem ResetToCommonAncestor_symmetric (A B : CPS) :
  ∃ A' B', ResetToCommonAncestor B A = Ok A' ∧
           ResetToCommonAncestor A B = Ok B' ∧
           eqb A' B' = true ∧
           (BlocksAndStatesInvariant A = true →
            BlocksAndStatesInvariant B = true →
            ∀ n, LookupState n A' = LookupState n B').
Proof.
  destruct (ResetToCommonAncestor_suffix B A)
    as (A' & HA' & HA1 & HA2 & HAmax).
  destruct (ResetToCommonAncestor_suffix A B)
    as (B' & HB' & HB1 & HB2 & HBmax).
  assert (eqb A' B' = true) as Heq.
  { apply eqb_true. apply suffix_length_eq; [by apply HBmax|].
    apply suffix_length. by apply HAmax. }
  exists A', B'. split; [done|]. split; [done|]. split; [done|].
  intros HinvA HinvB n. apply LookupState_eqb; [done| |].
  - eapply index_corresponds_ResetToCommonAncestor; [|exact HA'].
    by apply BlocksAndStatesInvariant_iff.
  - eapply index_corresponds_ResetToCommonAncestor; [|exact HB'].
    by apply BlocksAndStatesInvariant_iff.
Qed.

(** X10: narrowing keeps common states only: when the receiver passes
    [BlocksAndStatesInvariant], every set state that [LookupState] gives
    after [ResetToCommonAncestor] is owned by the node that was looked up
    and is a state of the block stack of the receiver before the call and of
    the block stack of the argument. *)
Theorem ResetToCommonAncestor_only_common_states (other this : CPS) :
  BlocksAndStatesInvariant this = true →
  ∃ this', ResetToCommonAncestor other this = Ok this' ∧
    ∀ n, IsSet (LookupState n this') = true →
         node (LookupState n this') = n ∧
         LookupState n this' ∈ concat (blocks_ this) ∧
         LookupState n this' ∈ concat (blocks_ other).
Proof.
  intros Hinv. apply BlocksAndStatesInvariant_iff in Hinv.
  destruct (ResetToCommonAncestor_suffix other this)
    as (this' & Hreset & Hthis & Hother & _).
  exists this'. split; [done|]. intros n Hset.
  pose proof (index_corresponds_ResetToCommonAncestor _ _ _ Hinv Hreset)
    as Hidx.
  destruct (LookupState_set_in_stack n this' Hidx Hset) as [Hnode Hin].
  split; [done|]. split; by eapply concat_suffix_subseteq.
Qed.

(** X11: [operator==] compares the block stacks and not the indices; for two
    path states that pass [BlocksAndStatesInvariant] this is enough: when
    they are equal by [operator==], [LookupState] gives the same on both for
    every node. *)
Theorem eqb_LookupState (this other : CPS) :
  eqb this other = true →
  BlocksAndStatesInvariant this = true →
  BlocksAndStatesInvariant other = true →
  ∀ n, LookupState n this = LookupState n other.
Proof.
  intros Heq Hthis Hother n.
  apply LookupState_eqb; [done|by apply BlocksAndStatesInvariant_iff..].
Qed.
End PathStateProperties.

(** * Further properties of the reducer *)

Section ReducerFacts.
Context {Node NodeState : Type} `{Countable Node} `{EqDecision NodeState}.
Context `{!NodeStateContract Node NodeState}.

Local Abbreviation CPS := (ControlPathState Node NodeState).
Local Abbreviation Reducer :=
  (AdvancedReducerWithControlPathState Node NodeState).
Import FunctionalList.

(** Without a change [UpdateStates] gives the reducer back. *)
Lemma UpdateStates_same state_owner (new_state : CPS) (r : Reducer) :
  IsReduced state_owner r = true →
  neqb (GetState state_owner r) new_state = false →
  UpdateStates state_owner new_state r = (NoChange, r).
Proof.
  unfold UpdateStates, IsReduced, GetState, NodeAuxData.Set_.
  intros -> ->. simpl. by destruct r.
Qed.

(** The five-argument overload returns, and commits the path state that
    [AddStateInNewBlock] or [AddState] makes. *)
Lemma UpdateStates_with_eq state_owner (prev_states : CPS) additional_node
    additional_state in_new_block (r : Reducer) :
  ∃ new_state,
    UpdateStates_with state_owner prev_states additional_node
      additional_state in_new_block r =
      Ok (UpdateStates state_owner new_state r) ∧
    ((in_new_block = true ∨ blocks_ prev_states = []) ∧
     new_state =
       AddStateInNewBlock additional_node additional_state prev_states ∨
     (in_new_block = false ∧ blocks_ prev_states ≠ []) ∧
     AddState additional_node additional_state (GetState state_owner r)
       prev_states = Ok new_state).
Proof.
  unfold UpdateStates_with, IsEmpty.
  destruct in_new_block; simpl.
  { eexists. split; [done|]. left. split; [by left|done]. }
  destruct (blocks_ prev_states) as [|block rest] eqn:Hb; simpl.
  { eexists. split; [done|]. left. split; [by right|done]. }
  rewrite (AddState_cons _ _ _ _ _ _ Hb). simpl.
  eexists. split; [done|]. right. by split.
Qed.

Lemma BlocksAndStatesInvariant_empty_state :
  BlocksAndStatesInvariant (empty_state : CPS) = true.
Proof. apply BlocksAndStatesInvariant_iff, index_corresponds_empty. Qed.
End ReducerFacts.

Section ReducerProperties.
Context {Node NodeState : Type} `{Countable Node} `{EqDecision NodeState}.
Context `{!NodeStateContract Node NodeState}.

Local Abbreviation CPS := (ControlPathState Node NodeState).
Local Abbreviation Reducer :=
  (AdvancedReducerWithControlPathState Node NodeState).
Import FunctionalList.

(** X12: the five-argument [UpdateStates] returns on every input: it calls
    [AddState] on a path state with a block only.  It commits, by the
    two-argument [UpdateStates], a path state with the new state in a block
    of its own on top of the stack when a new block is asked for or the stack
    is empty, and with the new state in front of the front block otherwise.
    In that path state [LookupState] of the additional node gives the new
    state when it is set, and the path state passes
    [BlocksAndStatesInvariant] when the one passed in does and the new state
    is owned by the additional node. *)
Theorem UpdateStates_with_returns state_owner (prev_states : CPS)
    additional_node additional_state in_new_block (r : Reducer) :
  ∃ new_state,
    UpdateStates_with state_owner prev_states additional_node
      additional_state in_new_block r =
      Ok (UpdateStates state_owner new_state r) ∧
    (in_new_block = true ∨ blocks_ prev_states = [] →
     blocks_ new_state = [additional_state] :: blocks_ prev_states) ∧
    (in_new_block = false →
     ∀ block rest, blocks_ prev_states = block :: rest →
       blocks_ new_state = (additional_state :: block) :: rest) ∧
    (IsSet additional_state = true →
     LookupState additional_node new_state = additional_state) ∧
    (node additional_state = additional_node →
     BlocksAndStatesInvariant prev_states = true →
     BlocksAndStatesInvariant new_state = true).
Proof.
  destruct (UpdateStates_with_eq state_owner prev_states additional_node
    additional_state in_new_block r)
    as (new_state & Hcall & [[Hnew ->]|[[Hin Hne] Hadd]]).
  - eexists. split; [exact Hcall|]. split; [done|]. split.
    { intros -> block rest Hb. destruct Hnew as [|Hnil]; [done|].
      by rewrite Hb in Hnil. }
    split.
    { intros Hset. unfold LookupState, AddStateInNewBlock, PushFront.
      cbn [blocks_ states_ Size length LookupState_from].
      rewrite Get_Set, decide_True by (unfold Size; f_equal; lia).
      by rewrite Hset. }
    intros Hnode Hinv. apply BlocksAndStatesInvariant_iff.
    apply index_corresponds_AddStateInNewBlock; [done|].
    by apply BlocksAndStatesInvariant_iff.
  - exists new_state. split; [exact Hcall|].
    destruct (blocks_ prev_states) as [|block rest] eqn:Hb; [done|].
    pose proof Hadd as Hadd'.
    rewrite (AddState_cons _ _ _ _ _ _ Hb) in Hadd'. injection Hadd' as <-.
    split; [by intros [|]; simplify_eq|]. split.
    { by intros _ block' rest' [= <- <-]. }
    split.
    { intros Hset. unfold LookupState.
      cbn [blocks_ states_ Size length LookupState_from].
      by rewrite Get_Set_eq, Hset. }
    intros Hnode Hinv. apply BlocksAndStatesInvariant_iff.
    eapply index_corresponds_AddState; [exact Hnode| |exact Hadd].
    by apply BlocksAndStatesInvariant_iff.
Qed.

(** X13: the two-argument [UpdateStates] returns [NoChange] exactly when it
    leaves both tables of the reducer as they were. *)
Theorem UpdateStates_NoChange_iff state_owner (new_state : CPS)
    (r : Reducer) :
  (UpdateStates state_owner new_state r).1 = NoChange ↔
  (UpdateStates state_owner new_state r).2 = r.
Proof.
  rewrite UpdateStates_outcome_eq. split.
  - destruct (IsReduced state_owner r) eqn:Hred; [|done].
    destruct (neqb (GetState state_owner r) new_state) eqn:Hneq; [done|].
    intros _. by rewrite UpdateStates_same.
  - intros Hsame.
    pose proof (UpdateStates_IsReduced state_owner new_state r state_owner)
      as Hred.
    pose proof (UpdateStates_GetState state_owner new_state r state_owner)
      as Hstate.
    rewrite decide_True in Hred by done. rewrite decide_True in Hstate by done.
    rewrite Hsame in Hred, Hstate. rewrite Hred. simpl.
    destruct (neqb (GetState state_owner r) new_state) eqn:Hneq; [|done].
    rewrite Hstate in Hneq. unfold neqb in Hneq.
    apply negb_true_iff in Hneq. apply not_true_iff_false in Hneq.
    destruct Hneq. by apply eqb_true.
Qed.

(** X14: no method of the reducer takes the mark of a reduced node away: a
    node that is reduced is reduced after the two-argument [UpdateStates],
    after [TakeStatesFromFirstControl] and after the five-argument
    [UpdateStates], for whatever node these are called. *)
Theorem IsReduced_stays n (r : Reducer) :
  IsReduced n r = true →
  (∀ state_owner new_state,
     IsReduced n (UpdateStates state_owner new_state r).2 = true) ∧
  (∀ control_inputs m out,
     TakeStatesFromFirstControl control_inputs m r = Ok out →
     IsReduced n out.2 = true) ∧
  (∀ state_owner prev_states additional_node additional_state in_new_block
     out,
     UpdateStates_with state_owner prev_states additional_node
       additional_state in_new_block r = Ok out →
     IsReduced n out.2 = true).
Proof.
  intros Hred.
  assert (∀ state_owner (new_state : CPS),
    IsReduced n (UpdateStates state_owner new_state r).2 = true) as Hupdate.
  { intros state_owner new_state. rewrite UpdateStates_IsReduced.
    by case_decide. }
  split; [done|]. split.
  - intros control_inputs m out.
    unfold TakeStatesFromFirstControl.
    destruct (GetControlInput control_inputs m 0) as [input| |]; simpl;
      [|done..].
    destruct (negb (IsReduced input r)); intros [= <-]; [done|].
    apply Hupdate.
  - intros state_owner prev_states additional_node additional_state
      in_new_block out.
    destruct (UpdateStates_with_eq state_owner prev_states additional_node
      additional_state in_new_block r) as (new_state & -> & _).
    intros [= <-]. apply Hupdate.
Qed.

(** X15: for a node whose first control input is reduced,
    [TakeStatesFromFirstControl] returns, leaves the node reduced and with a
    stored path state that is equal by [operator==] to the one of the input,
    and a second call right after returns [NoChange] and leaves the reducer
    as it is. *)
Theorem TakeStatesFromFirstControl_twice (control_inputs : Node → list Node)
    n input (r : Reducer) :
  control_inputs n !! 0 = Some input →
  IsReduced input r = true →
  ∃ outcome r',
    TakeStatesFromFirstControl control_inputs n r = Ok (outcome, r') ∧
    IsReduced n r' = true ∧
    eqb (GetState n r') (GetState input r) = true ∧
    TakeStatesFromFirstControl control_inputs n r' = Ok (NoChange, r').
Proof.
  intros Hinput Hred.
  unfold TakeStatesFromFirstControl, GetControlInput. rewrite Hinput. simpl.
  rewrite Hred. simpl.
  destruct (UpdateStates n (GetState input r) r) as [outcome r'] eqn:Hupdate.
  assert (r' = (UpdateStates n (GetState input r) r).2) as Hr'
    by (by rewrite Hupdate).
  assert (IsReduced n r' = true) as Hn.
  { rewrite Hr', UpdateStates_IsReduced. by rewrite decide_True. }
  assert (IsReduced input r' = true) as Hin.
  { rewrite Hr', UpdateStates_IsReduced. by case_decide. }
  assert (eqb (GetState n r') (GetState input r) = true) as Heq.
  { rewrite Hr', UpdateStates_GetState, decide_True by done.
    destruct (neqb _ (GetState input r)) eqn:Hneq.
    - by apply eqb_true.
    - by apply negb_false_iff in Hneq. }
  exists outcome, r'. split; [done|]. split; [done|]. split; [done|].
  rewrite Hin. simpl. f_equal. apply UpdateStates_same; [done|].
  apply negb_false_iff. destruct (decide (input = n)) as [->|Hne].
  - by apply eqb_true.
  - assert (GetState input r' = GetState input r) as ->; [|done].
    by rewrite Hr', UpdateStates_GetState, decide_False.
Qed.

(** X16: the stored path states pass [BlocksAndStatesInvariant] throughout:
    they do in the reducer as constructed, and when they do in a reducer they
    do after the two-argument [UpdateStates] with a path state that passes,
    after [TakeStatesFromFirstControl], and after the five-argument
    [UpdateStates] with a path state that passes and a state that the
    additional node owns. *)
Theorem stored_states_pass_check (r : Reducer) :
  (∀ m, BlocksAndStatesInvariant
          (GetState m (new_reducer : Reducer)) = true) ∧
  ((∀ m, BlocksAndStatesInvariant (GetState m r) = true) →
   (∀ state_owner new_state,
      BlocksAndStatesInvariant new_state = true →
      ∀ m, BlocksAndStatesInvariant
             (GetState m (UpdateStates state_owner new_state r).2) = true) ∧
   (∀ control_inputs n out,
      TakeStatesFromFirstControl control_inputs n r = Ok out →
      ∀ m, BlocksAndStatesInvariant (GetState m out.2) = true) ∧
   (∀ state_owner prev_states additional_node additional_state in_new_block
      out,
      node additional_state = additional_node →
      BlocksAndStatesInvariant prev_states = true →
      UpdateStates_with state_owner prev_states additional_node
        additional_state in_new_block r = Ok out →
      ∀ m, BlocksAndStatesInvariant (GetState m out.2) = true)).
Proof.
  split.
  { intros m. unfold GetState, NodeAuxData.Get. simpl.
    rewrite lookup_empty. apply BlocksAndStatesInvariant_empty_state. }
  intros Hstored.
  assert (∀ state_owner (new_state : CPS),
    BlocksAndStatesInvariant new_state = true →
    ∀ m, BlocksAndStatesInvariant
           (GetState m (UpdateStates state_owner new_state r).2) = true)
    as Hupdate.
  { intros state_owner new_state Hnew m. rewrite UpdateStates_GetState.
    case_decide; [|done]. by destruct (neqb _ new_state). }
  split; [done|]. split.
  - intros control_inputs n out. unfold TakeStatesFromFirstControl.
    destruct (GetControlInput control_inputs n 0) as [input| |]; simpl;
      [|done..].
    destruct (negb (IsReduced input r)); intros [= <-]; [done|].
    by apply Hupdate.
  - intros state_owner prev_states additional_node additional_state
      in_new_block out Hnode Hprev.
    destruct (UpdateStates_with_eq state_owner prev_states additional_node
      additional_state in_new_block r)
      as (new_state & -> & [[_ ->]|[_ Hadd]]); intros [= <-].
    + apply Hupdate. apply BlocksAndStatesInvariant_iff.
      apply index_corresponds_AddStateInNewBlock; [done|].
      by apply BlocksAndStatesInvariant_iff.
    + apply Hupdate. apply BlocksAndStatesInvariant_iff.
      eapply index_corresponds_AddState; [exact Hnode| |exact Hadd].
      by apply BlocksAndStatesInvariant_iff.
Qed.
End ReducerProperties.

(** * The further properties on the sample instance *)

Section MoreWitnesses.
Import Sample.
Import FunctionalList.

Lemma AddState_ignores_hint_witness :
  AddState 2 f2 empty region1 = AddState 2 f2 base region1 ∧
  Size (blocks_ base) = Size (blocks_ region1).
Proof.
  destruct (AddState_ignores_hint 2 f2 empty base region1) as [Heq Hret].
  split; [exact Heq|].
  destruct (Hret base) as [Hsize _]; [reflexivity|exact Hsize].
Defined.

Lemma AddStateInNewBlock_LookupState_witness :
  LookupState 3 (AddStateInNewBlock 3 f3 base) = f3.
Proof.
  destruct (AddStateInNewBlock_LookupState 3 f3 base) as (_ & Hset & _).
  apply Hset. reflexivity.
Defined.

Lemma AddState_LookupState_witness :
  ∃ this', AddState 1 f1' empty base = Ok this' ∧
    (IsSet f1' = true → LookupState 1 this' = f1') ∧
    (IsSet f1' = false →
     LookupState 1 this' =
       LookupState 1 {| blocks_ := []; states_ := states_ base |}).
Proof.
  apply (AddState_LookupState 1 f1' empty base [f2; f1] []). reflexivity.
Defined.

Lemma LookupState_sound_witness :
  node (LookupState 1 base) = 1 ∧ LookupState 1 base ∈ concat (blocks_ base).
Proof.
  destruct (LookupState_sound 1 base) as [_ Hset].
  apply Hset; vm_compute; reflexivity.
Defined.

Lemma BlocksAndStatesInvariant_decides_correspondence_witness :
  PersistentMap.Get NodeState_default (2, 1) (states_ base) =
    default NodeState_default
      (newest_in_block 2 (block_at (blocks_ base) 1)) ∧
  PersistentMap.Get NodeState_default (2, 7) (states_ base) =
    default NodeState_default
      (newest_in_block 2 (block_at (blocks_ base) 7)).
Proof.
  assert (BlocksAndStatesInvariant base = true) as Hcheck
    by (vm_compute; reflexivity).
  split;
    apply (proj1 (BlocksAndStatesInvariant_decides_correspondence base)
             Hcheck).
Defined.

Lemma reachable_states_pass_check_witness :
  BlocksAndStatesInvariant after_history = true ∧
  all_set (blocks_ after_history).
Proof.
  apply (reachable_states_pass_check history after_history);
    vm_compute; reflexivity.
Defined.

Lemma BlocksAndStatesInvariant_rejects_foreign_node_witness :
  BlocksAndStatesInvariant (AddStateInNewBlock 1 f2 base) = false.
Proof.
  destruct (BlocksAndStatesInvariant_rejects_foreign_node 1 f2 base)
    as [Hnew _].
  - vm_compute. reflexivity.
  - intros Hnode. vm_compute in Hnode. discriminate Hnode.
  - apply Hnew. intros Hdefault. vm_compute in Hdefault.
    discriminate Hdefault.
Defined.

Lemma ResetToCommonAncestor_common_suffix_witness :
  ∃ this', ResetToCommonAncestor branchB branchA = Ok this' ∧
    blocks_ this' `suffix_of` blocks_ branchA ∧
    blocks_ this' `suffix_of` blocks_ branchB ∧
    (f3 ∈ concat (blocks_ this') → f3 ∈ concat (blocks_ branchB)).
Proof.
  destruct (ResetToCommonAncestor_common_suffix branchB branchA)
    as (this' & Hreset & Hthis & Hother & _ & _ & Hstates).
  exists this'. split; [exact Hreset|]. split; [exact Hthis|].
  split; [exact Hother|]. intros Hin. apply (Hstates f3 Hin).
Defined.

Lemma ResetToCommonAncestor_symmetric_witness :
  ∃ A' B', ResetToCommonAncestor branchB branchA = Ok A' ∧
           ResetToCommonAncestor branchA branchB = Ok B' ∧
           eqb A' B' = true ∧
           ∀ n, LookupState n A' = LookupState n B'.
Proof.
  destruct (ResetToCommonAncestor_symmetric branchA branchB)
    as (A' & B' & HA' & HB' & Heq & Hlookup).
  exists A', B'. split; [exact HA'|]. split; [exact HB'|].
  split; [exact Heq|]. apply Hlookup; vm_compute; reflexivity.
Defined.

Lemma ResetToCommonAncestor_only_common_states_witness :
  ∃ this', ResetToCommonAncestor branchB branchA = Ok this' ∧
    ∀ n, IsSet (LookupState n this') = true →
         node (LookupState n this') = n ∧
         LookupState n this' ∈ concat (blocks_ branchA) ∧
         LookupState n this' ∈ concat (blocks_ branchB).
Proof.
  apply (ResetToCommonAncestor_only_common_states branchB branchA).
  vm_compute. reflexivity.
Defined.

Lemma eqb_LookupState_witness :
  LookupState 1 after_history = LookupState 1 after_history_padded ∧
  LookupState 9 after_history = LookupState 9 after_history_padded.
Proof.
  split;
    apply (eqb_LookupState after_history after_history_padded);
    vm_compute; reflexivity.
Defined.

Lemma UpdateStates_with_returns_witness :
  ∃ new_state,
    UpdateStates_with 2 empty 1 f1 false reducer1 =
      Ok (UpdateStates 2 new_state reducer1) ∧
    blocks_ new_state = [[f1]] ∧
    LookupState 1 new_state = f1 ∧
    BlocksAndStatesInvariant new_state = true.
Proof.
  destruct (UpdateStates_with_returns 2 empty 1 f1 false reducer1)
    as (new_state & Hcall & Hnew & _ & Hset & Hinv).
  exists new_state. split; [exact Hcall|].
  split; [apply Hnew; right; reflexivity|].
  split; [apply Hset; reflexivity|]. apply Hinv; reflexivity.
Defined.

Lemma UpdateStates_NoChange_iff_witness :
  (UpdateStates 1 region1 reducer1).2 = reducer1.
Proof.
  apply (UpdateStates_NoChange_iff 1 region1 reducer1).
  vm_compute. reflexivity.
Defined.

Lemma IsReduced_stays_witness :
  IsReduced 1 (UpdateStates 2 base reducer1).2 = true.
Proof.
  destruct (IsReduced_stays 1 reducer1) as (Hupdate & _).
  - reflexivity.
  - apply Hupdate.
Defined.

Lemma TakeStatesFromFirstControl_twice_witness :
  ∃ outcome r',
    TakeStatesFromFirstControl graph 2 reducer1 = Ok (outcome, r') ∧
    IsReduced 2 r' = true ∧
    eqb (GetState 2 r') (GetState 1 reducer1) = true ∧
    TakeStatesFromFirstControl graph 2 r' = Ok (NoChange, r').
Proof.
  apply (TakeStatesFromFirstControl_twice graph 2 1 reducer1); reflexivity.
Defined.

Lemma stored_states_pass_check_witness :
  BlocksAndStatesInvariant (GetState 1 reducer1) = true ∧
  BlocksAndStatesInvariant (GetState 2 reducer1) = true.
Proof.
  destruct (stored_states_pass_check reducer0) as [Hnew Hkept].
  destruct (Hkept Hnew) as (Hupdate & _).
  split; apply (Hupdate 1 region1); vm_compute; reflexivity.
Defined.
End MoreWitnesses.
